(** * Synapse: the resource cache and subscription manager

    A shallow embedding of [class Manager] (cache, dependents, subscriptions,
    generator) and of its methods [subscribe], [unsubscribe], [update], [get],
    [post], [put], [patch] and [delete].

    Conventions of the embedding.
    - A JavaScript [Map] is a [gmap]: the code never iterates over a Map, so
      only lookups matter.
    - A JavaScript [Set] is a duplicate-free list in insertion order;
      [Set.prototype.forEach] walks that order and skips an element that has
      been deleted before it is reached.
    - A client is a callback function, used by the code only as a Map/Set key
      and as something to invoke.  It is an identity ([nat]) here and invoking
      it appends a [Notify] event to the trace; callbacks are taken to return
      normally and not to call back into the manager.  What a callback can
      observe when it runs is the manager of that moment: [seen] keeps, for
      each [Notify] of the trace and in the same order, the manager the
      callback was started against.
    - A method runs in a state-and-exception monad over [World]: a thrown
      [TypeError] keeps the mutations done before it, as in JavaScript.
    - The only suspension point of the class is the [await] on the generator
      in [update]; what runs after it is [update_resume].  A method that is
      awaited by its caller ([update], [get]) is run to completion: the
      generator is asked and the rest follows at once.  The mutating methods
      call [this.update(path)] without awaiting it: [update] then runs up to
      its [await], which asks the generator, and the method returns; the
      rest of that [update] is left in [pending] with the answer it will
      receive, and runs when a [Settle] step of the run picks it.  A run may
      also contain [Resume] steps, which apply the continuation of [update]
      to whatever world other operations have left, with an arbitrary answer.
    - No callback in the class adds to the Set it is walking, so a walk only
      has to cope with deletions.
    - [console.log] calls are not modelled. *)

From Stdlib Require Import ZArith.
From stdpp Require Import base option list strings gmap.

Open Scope Z_scope.
Open Scope string_scope.
Open Scope list_scope.

(** ** Data *)

(** Payloads and notification values are [any] in the source. *)
Unset Elimination Schemes.
Inductive value : Type :=
  | Undefined
  | Null
  | Bool (b : bool)
  | Num (z : Z)
  | Str (s : string)
  | Arr (items : list value)
  | Obj (fields : list (string * value)).
Set Elimination Schemes.

Abbreviation client := nat.

Inductive verb : Type := Get | Post | Put | Patch | Delete.

(** Modelled from the spec: the class [Reply] (required from "./Reply") is not
    part of the sources at hand.  A Result is a status code, a payload and the
    answer of [isError()]. *)
Record Reply : Type := mkReply {
  status : Z;
  payload : value;
  isError : bool
}.

(** Modelled from the spec: [Reply.OK(v)], "a success Result wrapping" [v]. *)
Definition Reply_OK (v : value) : Reply :=
  {| status := 200; payload := v; isError := false |}.

(** What the outside world sees: calls made to the generator and client
    callbacks invoked, in the order they happen. *)
Inductive event : Type :=
  | Call (v : verb) (path : string) (data : value)
  | Notify (c : client) (path : string) (v : value).

(** [generator] is the function captured by the constructor.  It is stateful
    in general; its answer may depend on everything that happened before. *)
Record Manager : Type := mkManager {
  cache : gmap string value;
  dependents : gmap string (list client);
  subscriptions : gmap client (list string);
  generator : list event -> verb -> string -> value -> Reply
}.

Record World : Type := mkWorld {
  mgr : Manager;
  trace : list event;
  pending : list (string * Reply);
  seen : list Manager
}.

(** [constructor(controller)] *)
Definition new_Manager (gen : list event -> verb -> string -> value -> Reply)
  : Manager :=
  {| cache := ∅; dependents := ∅; subscriptions := ∅; generator := gen |}.

Definition init (gen : list event -> verb -> string -> value -> Reply) : World :=
  {| mgr := new_Manager gen; trace := []; pending := []; seen := [] |}.

(** ** The monad of method bodies *)

Inductive error : Type := TypeError.

Inductive completion (A : Type) : Type :=
  | Normal (a : A)
  | Throw (e : error).
Arguments Normal {A} a.
Arguments Throw {A} e.

Definition M (A : Type) : Type := World -> completion A * World.

Definition ret {A} (a : A) : M A := fun w => (Normal a, w).

Definition throw {A} (e : error) : M A := fun w => (Throw e, w).

Definition bind {A B} (m : M A) (k : A -> M B) : M B :=
  fun w =>
    match m w with
    | (Normal a, w') => k a w'
    | (Throw e, w') => (Throw e, w')
    end.

Notation "'let!' x ':=' m 'in' k" := (bind m (fun x => k))
  (at level 10, x name, m at level 100, k at level 200).
Notation "m ';;' k" := (bind m (fun _ => k))
  (at level 100, k at level 200, right associativity).

Definition gets {A} (f : World -> A) : M A := fun w => (Normal (f w), w).

Definition modify (f : World -> World) : M unit := fun w => (Normal tt, f w).

(** ** Sets as insertion-ordered lists *)

Definition Set_add {A} `{EqDecision A} (x : A) (s : list A) : list A :=
  if decide (x ∈ s) then s else s ++ [x].

Definition Set_delete {A} `{EqDecision A} (x : A) (s : list A) : list A :=
  filter (fun y => y ≠ x) s.

(** [s.forEach(body)] on a Set that [body] may shrink: [snapshot] is the
    content when the walk starts, [live] reads the Set as it is now. *)
Fixpoint Set_forEach {A} `{EqDecision A} (live : World -> list A)
    (body : A -> M unit) (snapshot : list A) : M unit :=
  match snapshot with
  | [] => ret tt
  | x :: rest =>
      fun w =>
        if decide (x ∈ live w)
        then (body x ;; Set_forEach live body rest) w
        else Set_forEach live body rest w
  end.

(** [a.forEach(body)] on an Array that nobody else holds. *)
Fixpoint Array_forEach {A} (body : A -> M unit) (a : list A) : M unit :=
  match a with
  | [] => ret tt
  | x :: rest => body x ;; Array_forEach body rest
  end.

(** ** Field updates *)

Definition with_cache (f : gmap string value -> gmap string value)
    (w : World) : World :=
  {| mgr := {| cache := f (cache (mgr w));
               dependents := dependents (mgr w);
               subscriptions := subscriptions (mgr w);
               generator := generator (mgr w) |};
     trace := trace w;
     pending := pending w;
     seen := seen w |}.

Definition with_dependents
    (f : gmap string (list client) -> gmap string (list client))
    (w : World) : World :=
  {| mgr := {| cache := cache (mgr w);
               dependents := f (dependents (mgr w));
               subscriptions := subscriptions (mgr w);
               generator := generator (mgr w) |};
     trace := trace w;
     pending := pending w;
     seen := seen w |}.

Definition with_subscriptions
    (f : gmap client (list string) -> gmap client (list string))
    (w : World) : World :=
  {| mgr := {| cache := cache (mgr w);
               dependents := dependents (mgr w);
               subscriptions := f (subscriptions (mgr w));
               generator := generator (mgr w) |};
     trace := trace w;
     pending := pending w;
     seen := seen w |}.

Definition emit (e : event) (w : World) : World :=
  {| mgr := mgr w; trace := trace w ++ [e];
     pending := pending w; seen := seen w |}.

Definition with_pending
    (f : list (string * Reply) -> list (string * Reply)) (w : World) : World :=
  {| mgr := mgr w; trace := trace w; pending := f (pending w); seen := seen w |}.

(** A callback starts, with the manager as it is now before its eyes. *)
Definition observe (w : World) : World :=
  {| mgr := mgr w; trace := trace w;
     pending := pending w; seen := seen w ++ [mgr w] |}.

(** The two views of the graph: a missing Map entry reads as the empty set. *)
Definition dependentsOf (path : string) (w : World) : list client :=
  default [] (dependents (mgr w) !! path).

Definition subscriptionsOf (c : client) (w : World) : list string :=
  default [] (subscriptions (mgr w) !! c).

(** ** Methods *)

(** [client(path, v)] *)
Definition invoke (c : client) (path : string) (v : value) : M unit :=
  modify (fun w => emit (Notify c path v) (observe w)).

(** [await this.generator(verb, path, data)] *)
Definition call_generator (v : verb) (path : string) (data : value) : M Reply :=
  fun w =>
    (Normal (generator (mgr w) (trace w) v path data),
     emit (Call v path data) w).

(** [subscribe(client, path)] *)
Definition subscribe (c : client) (path : string) : M unit :=
  (let! has := gets (fun w => bool_decide (is_Some (subscriptions (mgr w) !! c))) in
   if has then ret tt else modify (with_subscriptions <[c := []]>)) ;;
  (let! has := gets (fun w => bool_decide (is_Some (dependents (mgr w) !! path))) in
   if has then ret tt else modify (with_dependents <[path := []]>)) ;;
  (let! ds := gets (fun w => dependents (mgr w) !! path) in
   match ds with
   | Some s => modify (with_dependents <[path := Set_add c s]>)
   | None => throw TypeError
   end) ;;
  (let! ss := gets (fun w => subscriptions (mgr w) !! c) in
   match ss with
   | Some s => modify (with_subscriptions <[c := Set_add path s]>)
   | None => throw TypeError
   end).

(** The condition [path ? ... : ...]: [null] and the empty string are falsy. *)
Definition truthy (path : option string) : option string :=
  match path with
  | Some p => if decide (p = "") then None else Some p
  | None => None
  end.

(** The arrow function passed to [remove.forEach] in [unsubscribe].  The
    constant [subscriptions] of the source is the Set object stored under
    [client]; no method ever replaces a stored Set object, so reading the Map
    again gives the same object. *)
Definition unsubscribe_target (c : client) (target : string) : M unit :=
  (let! ss := gets (fun w => subscriptions (mgr w) !! c) in
   match ss with
   | Some s => modify (with_subscriptions <[c := Set_delete target s]>)
   | None => throw TypeError
   end) ;;
  (let! ds := gets (fun w => dependents (mgr w) !! target) in
   match ds with
   | Some s => modify (with_dependents <[target := Set_delete c s]>)
   | None => throw TypeError
   end).

(** [unsubscribe(client, path = null)] *)
Definition unsubscribe (c : client) (path : option string) : M unit :=
  let! ss := gets (fun w => subscriptions (mgr w) !! c) in
  match truthy path with
  | Some p => Array_forEach (unsubscribe_target c) [p]
  | None =>
      match ss with
      | Some s => Set_forEach (subscriptionsOf c) (unsubscribe_target c) s
      | None => throw TypeError
      end
  end.

(** The arrow function of the success branch of [update]:
    [(client) => client(path, this.cache.get(path))]. *)
Definition notify_dependent (path : string) (c : client) : M unit :=
  let! v := gets (fun w => default Undefined (cache (mgr w) !! path)) in
  invoke c path v.

(** The arrow function of the 404 branch of [update]:
    [(client) => { this.unsubscribe(client, path); client(path, undefined); }]. *)
Definition evict_dependent (path : string) (c : client) : M unit :=
  unsubscribe c (Some path) ;;
  invoke c path Undefined.

(** The part of [update] that runs once the generator has answered. *)
Definition update_resume (path : string) (result : Reply) : M Reply :=
  (if negb (isError result) then
     modify (with_cache <[path := payload result]>) ;;
     let! ds := gets (fun w => dependents (mgr w) !! path) in
     match ds with
     | Some s => Set_forEach (dependentsOf path) (notify_dependent path) s
     | None => ret tt
     end
   else if (status result =? 404)%Z then
     modify (with_cache (delete path)) ;;
     let! ds := gets (fun w => dependents (mgr w) !! path) in
     match ds with
     | Some s => Set_forEach (dependentsOf path) (evict_dependent path) s
     | None => ret tt
     end
   else ret tt) ;;
  ret result.

(** [update(path)] *)
Definition update (path : string) : M Reply :=
  let! result := call_generator Get path Undefined in
  update_resume path result.

(** [get(path, data)] *)
Definition get (path : string) (data : value) : M Reply :=
  let! hit := gets (fun w => cache (mgr w) !! path) in
  match hit with
  | Some v => ret (Reply_OK v)
  | None => update path
  end.

(** [this.update(path)] called and not awaited.  [update] runs up to its
    [await]: the generator is asked.  The rest of [update] waits for the
    answer and is left pending; neither its value nor a rejection reaches
    the caller. *)
Definition update_unawaited (path : string) : M unit :=
  let! result := call_generator Get path Undefined in
  modify (with_pending (fun q => q ++ [(path, result)])).

(** The common shape of [post], [put], [patch] and [delete]. *)
Definition mutate (v : verb) (path : string) (data : value) : M Reply :=
  let! result := call_generator v path data in
  (if negb (isError result) then update_unawaited path else ret tt) ;;
  ret result.

Definition post (path : string) (data : value) : M Reply := mutate Post path data.
Definition put (path : string) (data : value) : M Reply := mutate Put path data.
Definition patch (path : string) (data : value) : M Reply := mutate Patch path data.
Definition delete_ (path : string) : M Reply := mutate Delete path Null.

(** The answer to the [i]-th pending refresh arrives, that refresh being one
    of [path]: it leaves the pending ones and the rest of its [update] runs.
    Its value and a rejection go nowhere.  With no such refresh nothing
    happens. *)
Definition settle (path : string) (i : nat) : M unit :=
  fun w =>
    match pending w !! i with
    | Some (p, result) =>
        if decide (p = path)
        then (Normal tt,
              snd (update_resume path result (with_pending (delete i) w)))
        else (Normal tt, w)
    | None => (Normal tt, w)
    end.

(** ** Runs of the manager *)

(** One step of a run.  [Settle path i] lets the [i]-th pending refresh, one
    of [path], receive its answer.  [Resume path result] is the continuation
    of an [update] whose generator call was answered by [result] while other
    operations were interleaved with it. *)
Inductive op : Type :=
  | Subscribe (c : client) (path : string)
  | Unsubscribe (c : client) (path : option string)
  | DoGet (path : string) (data : value)
  | DoUpdate (path : string)
  | DoPost (path : string) (data : value)
  | DoPut (path : string) (data : value)
  | DoPatch (path : string) (data : value)
  | DoDelete (path : string)
  | Resume (path : string) (result : Reply)
  | Settle (path : string) (i : nat).

(** The world an operation leaves behind, whether it returned or threw. *)
Definition exec (o : op) (w : World) : World :=
  match o with
  | Subscribe c path => snd (subscribe c path w)
  | Unsubscribe c path => snd (unsubscribe c path w)
  | DoGet path data => snd (get path data w)
  | DoUpdate path => snd (update path w)
  | DoPost path data => snd (post path data w)
  | DoPut path data => snd (put path data w)
  | DoPatch path data => snd (patch path data w)
  | DoDelete path => snd (delete_ path w)
  | Resume path result => snd (update_resume path result w)
  | Settle path i => snd (settle path i w)
  end.

Definition exec_all (os : list op) (w : World) : World := foldl (fun w o => exec o w) w os.

Inductive reachable : World -> Prop :=
  | reachable_init gen : reachable (init gen)
  | reachable_step o w : reachable w -> reachable (exec o w).

(** ** Observations *)

(** The graph is symmetric when both indexes describe the same edges. *)
Definition symmetric (w : World) : Prop :=
  forall (c : client) (p : string), c ∈ dependentsOf p w <-> p ∈ subscriptionsOf c w.

(** Representation invariant: symmetric, and every stored Set is one. *)
Definition graph_inv (w : World) : Prop :=
  symmetric w /\
  (forall p : string, NoDup (dependentsOf p w)) /\
  (forall c : client, NoDup (subscriptionsOf c w)).

(** The [(path, value)] pairs client [c] was invoked with, oldest first. *)
Definition notifications_to (c : client) (evs : list event) : list (string * value) :=
  omap (fun e => match e with
                 | Notify c' p v => if decide (c' = c) then Some (p, v) else None
                 | Call _ _ _ => None
                 end) evs.

(** The generator calls in a trace, oldest first. *)
Definition resolver_calls (evs : list event) : list (verb * string * value) :=
  omap (fun e => match e with
                 | Call v p d => Some (v, p, d)
                 | Notify _ _ _ => None
                 end) evs.

(** The elements a [forEach] over a Set visits, each with the world in which
    the callback starts for it. *)
Fixpoint Set_forEach_visits {A} `{EqDecision A} (live : World -> list A)
    (body : A -> M unit) (snapshot : list A) (w : World) : list (A * World) :=
  match snapshot with
  | [] => []
  | x :: rest =>
      if decide (x ∈ live w)
      then (x, w) ::
           match body x w with
           | (Normal _, w') => Set_forEach_visits live body rest w'
           | (Throw _, _) => []
           end
      else Set_forEach_visits live body rest w
  end.

(** [w'] is [w] with the edges between [c] and the paths [ts] taken out of
    both indexes, and nothing else changed. *)
Definition edges_removed (c : client) (ts : list string) (w w' : World) : Prop :=
  (forall q, dependentsOf q w' =
             if decide (q ∈ ts) then Set_delete c (dependentsOf q w)
             else dependentsOf q w) /\
  (forall d, subscriptionsOf d w' =
             if decide (d = c) then filter (fun t => t ∉ ts) (subscriptionsOf d w)
             else subscriptionsOf d w) /\
  cache (mgr w') = cache (mgr w) /\
  trace w' = trace w /\
  generator (mgr w') = generator (mgr w) /\
  pending w' = pending w /\
  seen w' = seen w.

(** The paths [unsubscribe(c, path)] walks over: the array [[path]] when
    [path] is truthy, the client's own Set otherwise. *)
Definition unsubscribe_targets (c : client) (path : option string) (w : World)
  : list string :=
  match truthy path with
  | Some p => [p]
  | None => subscriptionsOf c w
  end.

(** A mutating method passes an error answer through: the verb call is the
    only thing that happens and the manager is left as it was. *)
Definition error_passthrough (m : M Reply) (v : verb) (path : string)
    (data : value) (w : World) : Prop :=
  let result := generator (mgr w) (trace w) v path data in
  isError result = true ->
  exists w', m w = (Normal result, w') /\
             mgr w' = mgr w /\
             trace w' = trace w ++ [Call v path data].

(** ** Sample generators *)

Definition not_found : Reply :=
  {| status := 404; payload := Undefined; isError := true |}.

Definition server_error : Reply :=
  {| status := 500; payload := Undefined; isError := true |}.

Definition deleted_in (path : string) (history : list event) : bool :=
  existsb (fun e => match e with
                    | Call Delete p _ => bool_decide (p = path)
                    | _ => false
                    end) history.

(** A backend in which every resource exists until it has been deleted, and
    whose resource "/broken" fails on every request. *)
Definition sample_backend (history : list event) (v : verb) (path : string)
    (data : value) : Reply :=
  if bool_decide (path = "/broken") then server_error
  else if deleted_in path history then not_found
  else match v with
       | Get => Reply_OK (Str path)
       | Delete => Reply_OK Null
       | _ => Reply_OK data
       end.

Definition last_written (path : string) (history : list event) : option value :=
  last (omap (fun e => match e with
                       | Call Get _ _ | Call Delete _ _ | Notify _ _ _ => None
                       | Call _ p d => if bool_decide (p = path) then Some d else None
                       end) history).

(** A backend that keeps what was last written to a resource and serves it
    until the resource is deleted. *)
Definition store_backend (history : list event) (v : verb) (path : string)
    (data : value) : Reply :=
  if deleted_in path history then not_found
  else match v with
       | Get => Reply_OK (default Null (last_written path history))
       | Delete => Reply_OK Null
       | _ => Reply_OK data
       end.

(** A backend that serves reads and has no route for any other verb. *)
Definition read_only_backend (history : list event) (v : verb) (path : string)
    (data : value) : Reply :=
  match v with
  | Get => Reply_OK (Str path)
  | _ => not_found
  end.

(** The events a step from [w] to [w'] has added to the trace. *)
Definition new_events (w w' : World) : list event :=
  drop (length (trace w)) (trace w').

(** The path whose cache entry an operation may write or delete. *)
Definition cache_path (o : op) : option string :=
  match o with
  | Subscribe _ _ | Unsubscribe _ _ => None
  | DoGet path _ | DoUpdate path | DoPost path _ | DoPut path _
  | DoPatch path _ | DoDelete path | Resume path _ | Settle path _ => Some path
  end.

(** Is [o] a [subscribe] call of client [c]? *)
Definition subscribes (c : client) (o : op) : bool :=
  match o with
  | Subscribe c' _ => bool_decide (c' = c)
  | _ => false
  end.

(** A computation keeps a property of the world, however it completes. *)
Definition preserves {A} (I : World -> Prop) (m : M A) : Prop :=
  forall w, I w -> I (snd (m w)).

(** Manager [m] records the edge between [c] and [path], in one index at
    least. *)
Definition edge_in (m : Manager) (c : client) (path : string) : Prop :=
  c ∈ default [] (dependents m !! path) \/
  path ∈ default [] (subscriptions m !! c).

(** What [post], [put], [patch] and [delete] have in common, as a contract on
    the method [m] with verb [v].

    The generator is called with [v].  On an error answer that call is all
    that happens.  On a non-error answer the method asks the generator once
    more, with "get", leaves one refresh of [path] pending, touches nothing
    of the manager and returns the answer of the verb call.

    When that refresh receives its answer (here: before anything else
    happens), it is no longer pending, no further generator call is made,
    and one fan-out round takes place: a non-error answer puts its payload in
    the cache and every dependent of [path] is invoked with it; a 404 takes
    [path] out of the cache, every dependent is invoked with [undefined] and
    nobody is subscribed to [path] any more; any other error changes nothing
    and invokes nobody. *)
Definition mutation_contract (m : M Reply) (v : verb) (path : string)
    (data : value) (w : World) : Prop :=
  let result := generator (mgr w) (trace w) v path data in
  let w1 := emit (Call v path data) w in
  let refresh := generator (mgr w) (trace w1) Get path Undefined in
  let w2 := with_pending (fun q => q ++ [(path, refresh)])
              (emit (Call Get path Undefined) w1) in
  (isError result = false ->
     m w = (Normal result, w2) /\
     (reachable w ->
      exists w3,
        settle path (length (pending w)) w2 = (Normal tt, w3) /\
        pending w3 = pending w /\
        cache (mgr w3) =
          (if negb (isError refresh) then <[path := payload refresh]> (cache (mgr w))
           else if (status refresh =? 404)%Z then delete path (cache (mgr w))
           else cache (mgr w)) /\
        new_events w2 w3 =
          map (fun c => Notify c path
                          (if isError refresh then Undefined else payload refresh))
              (if isError refresh && negb (status refresh =? 404)%Z
               then [] else dependentsOf path w) /\
        (isError refresh = true -> status refresh = 404%Z ->
         forall c, (c ∉ dependentsOf path w3) /\ (path ∉ subscriptionsOf c w3)) /\
        (isError refresh = false \/ status refresh ≠ 404%Z ->
         dependents (mgr w3) = dependents (mgr w) /\
         subscriptions (mgr w3) = subscriptions (mgr w)))) /\
  (isError result = true -> m w = (Normal result, w1)).

(** * Proofs *)

(** ** Sets *)

Section SetLemmas.
Context {A : Type} `{EqDecision A}.
Implicit Types (x y : A) (s : list A).

Lemma elem_of_Set_add x y s : y ∈ Set_add x s <-> y = x \/ y ∈ s.
Proof.
  unfold Set_add. destruct (decide (x ∈ s)).
  - split; [tauto |]. intros [Hy|Hy]; [by subst | done].
  - rewrite elem_of_app, list_elem_of_singleton. tauto.
Qed.

Lemma NoDup_Set_add x s : NoDup s -> NoDup (Set_add x s).
Proof.
  intros Hs. unfold Set_add. destruct (decide (x ∈ s)); [done |].
  apply NoDup_app. split_and!; [done | | apply NoDup_singleton].
  intros y Hy ->%list_elem_of_singleton. done.
Qed.

Lemma Set_add_idemp x s : Set_add x (Set_add x s) = Set_add x s.
Proof.
  unfold Set_add at 1. rewrite decide_True; [done |].
  apply elem_of_Set_add. by left.
Qed.

Lemma elem_of_Set_delete x y s : y ∈ Set_delete x s <-> y ≠ x /\ y ∈ s.
Proof. unfold Set_delete. by rewrite list_elem_of_filter. Qed.

Lemma NoDup_Set_delete x s : NoDup s -> NoDup (Set_delete x s).
Proof. apply NoDup_filter. Qed.

Lemma Set_delete_absent x s : x ∉ s -> Set_delete x s = s.
Proof.
  intros Hx. unfold Set_delete. induction s as [|y s IH]; [done |].
  apply not_elem_of_cons in Hx as [Hne Hx].
  rewrite filter_cons_True by congruence. by rewrite IH.
Qed.

Lemma Set_delete_idemp x s : Set_delete x (Set_delete x s) = Set_delete x s.
Proof. apply Set_delete_absent. rewrite elem_of_Set_delete. tauto. Qed.

Lemma Set_delete_head x s : NoDup (x :: s) -> Set_delete x (x :: s) = s.
Proof.
  intros [Hx _]%NoDup_cons. unfold Set_delete.
  rewrite filter_cons_False by (intros Hne; by apply Hne).
  by apply Set_delete_absent.
Qed.
End SetLemmas.

(** ** Reading the world after a field update *)

Lemma dependentsOf_with_dependents_insert q t l w :
  dependentsOf q (with_dependents <[t := l]> w) =
  if decide (q = t) then l else dependentsOf q w.
Proof.
  unfold dependentsOf; simpl. case_decide as Hq.
  - subst. by rewrite lookup_insert_eq.
  - by rewrite lookup_insert_ne.
Qed.

Lemma subscriptionsOf_with_subscriptions_insert d c l w :
  subscriptionsOf d (with_subscriptions <[c := l]> w) =
  if decide (d = c) then l else subscriptionsOf d w.
Proof.
  unfold subscriptionsOf; simpl. case_decide as Hd.
  - subst. by rewrite lookup_insert_eq.
  - by rewrite lookup_insert_ne.
Qed.

Lemma dependentsOf_lookup p w s :
  dependents (mgr w) !! p = Some s -> dependentsOf p w = s.
Proof. unfold dependentsOf. by intros ->. Qed.

Lemma subscriptionsOf_lookup c w s :
  subscriptions (mgr w) !! c = Some s -> subscriptionsOf c w = s.
Proof. unfold subscriptionsOf. by intros ->. Qed.

Lemma dependentsOf_elem_is_Some c p w :
  c ∈ dependentsOf p w -> is_Some (dependents (mgr w) !! p).
Proof.
  unfold dependentsOf. destruct (dependents (mgr w) !! p); [eauto |].
  simpl. by intros ?%elem_of_nil.
Qed.

Lemma subscriptionsOf_elem_is_Some c p w :
  p ∈ subscriptionsOf c w -> is_Some (subscriptions (mgr w) !! c).
Proof.
  unfold subscriptionsOf. destruct (subscriptions (mgr w) !! c); [eauto |].
  simpl. by intros ?%elem_of_nil.
Qed.

(** ** Computations that keep a property *)

Section Preserves.
Context (I : World -> Prop).

Lemma preserves_ret {A} (a : A) : preserves I (ret a).
Proof. by intros w. Qed.

Lemma preserves_throw {A} e : preserves I (@throw A e).
Proof. by intros w. Qed.

Lemma preserves_gets {A} (f : World -> A) : preserves I (gets f).
Proof. by intros w. Qed.

Lemma preserves_bind {A B} (m : M A) (k : A -> M B) :
  preserves I m -> (forall a, preserves I (k a)) -> preserves I (bind m k).
Proof.
  intros Hm Hk w Hw. unfold bind. specialize (Hm w Hw).
  destruct (m w) as [[a|e] w1]; simpl in *; [by apply Hk | done].
Qed.

Lemma preserves_modify f : (forall w, I w -> I (f w)) -> preserves I (modify f).
Proof. intros Hf w Hw. by apply Hf. Qed.

Lemma preserves_Array_forEach {A} (body : A -> M unit) a :
  (forall x, preserves I (body x)) -> preserves I (Array_forEach body a).
Proof.
  intros Hb. induction a as [|x a IH]; simpl.
  - apply preserves_ret.
  - apply preserves_bind; [apply Hb | by intros _].
Qed.

Lemma preserves_Set_forEach {A} `{EqDecision A} live (body : A -> M unit) s :
  (forall x, preserves I (body x)) -> preserves I (Set_forEach live body s).
Proof.
  intros Hb. induction s as [|x s IH]; simpl.
  - apply preserves_ret.
  - intros w Hw. case_decide; [| by apply IH].
    by apply (preserves_bind (body x) (fun _ => Set_forEach live body s)).
Qed.
End Preserves.

(** ** [subscribe] *)

Lemma subscribe_eq c p w :
  subscribe c p w =
  (Normal tt,
   with_subscriptions <[c := Set_add p (subscriptionsOf c w)]>
     (with_dependents <[p := Set_add c (dependentsOf p w)]> w)).
Proof.
  unfold subscribe, bind, gets, modify, ret, throw, dependentsOf, subscriptionsOf.
  unfold with_subscriptions, with_dependents. simpl.
  destruct (subscriptions (mgr w) !! c) as [ss|] eqn:Hs;
    destruct (dependents (mgr w) !! p) as [ds|] eqn:Hd; simpl;
    repeat (rewrite ?Hs, ?Hd, ?lookup_insert_eq, ?insert_insert_eq; simpl);
    reflexivity.
Qed.

(** ** Removing edges *)

Lemma filter_not_in_singleton (t : string) (s : list string) :
  filter (fun t' => t' ∉ [t]) s = Set_delete t s.
Proof.
  unfold Set_delete. apply list_filter_iff. intros x.
  by rewrite list_elem_of_singleton.
Qed.

Lemma filter_not_in_nil (s : list string) : filter (fun t' => t' ∉ []) s = s.
Proof.
  induction s as [|x s IH]; [done |].
  rewrite filter_cons_True by apply not_elem_of_nil. by rewrite IH.
Qed.

Lemma edges_removed_nil c w : edges_removed c [] w w.
Proof.
  unfold edges_removed. split_and!; try done.
  intros d. destruct (decide (d = c)); [| done]. by rewrite filter_not_in_nil.
Qed.

Lemma edges_removed_cons c t ts w w1 w2 :
  edges_removed c [t] w w1 -> edges_removed c ts w1 w2 ->
  edges_removed c (t :: ts) w w2.
Proof.
  intros (Hd1 & Hs1 & Hc1 & Ht1 & Hg1 & Hp1 & Ho1)
         (Hd2 & Hs2 & Hc2 & Ht2 & Hg2 & Hp2 & Ho2).
  unfold edges_removed. split_and!; try congruence.
  - intros q. rewrite Hd2, Hd1.
    destruct (decide (q ∈ ts)) as [Hq|Hq]; destruct (decide (q ∈ [t])) as [Hq'|Hq'];
      destruct (decide (q ∈ t :: ts)) as [Hq''|Hq'']; try done.
    + apply Set_delete_idemp.
    + exfalso. apply Hq''. by right.
    + exfalso. apply Hq''. by right.
    + exfalso. apply Hq''. apply list_elem_of_singleton in Hq' as ->. by left.
    + exfalso. apply elem_of_cons in Hq'' as [->|?]; [| done].
      apply Hq'. by apply list_elem_of_singleton.
  - intros d. rewrite Hs2, Hs1. destruct (decide (d = c)); [| done].
    rewrite list_filter_filter. apply list_filter_iff. intros x.
    rewrite (not_elem_of_cons ts), list_elem_of_singleton. tauto.
Qed.

Lemma edges_removed_symmetric c ts w w' :
  symmetric w -> edges_removed c ts w w' -> symmetric w'.
Proof.
  intros Hsym (Hd & Hs & _) c' p'. rewrite Hd, Hs.
  destruct (decide (p' ∈ ts)) as [Hp|Hp]; destruct (decide (c' = c)) as [->|Hc];
    rewrite ?elem_of_Set_delete, ?list_elem_of_filter, (Hsym _ p'); tauto.
Qed.

Lemma edges_removed_graph_inv c ts w w' :
  graph_inv w -> edges_removed c ts w w' -> graph_inv w'.
Proof.
  intros (Hsym & Hnd & Hns) Hrem. split_and!.
  - by eapply edges_removed_symmetric.
  - intros q. destruct Hrem as (Hd & _). rewrite Hd.
    destruct (decide (q ∈ ts)); [by apply NoDup_Set_delete | done].
  - intros d. destruct Hrem as (_ & Hs & _). rewrite Hs.
    destruct (decide (d = c)); [by apply NoDup_filter | done].
Qed.

(** Taking out an edge that is not there changes nothing. *)
Lemma edges_removed_absent c t w :
  symmetric w -> t ∉ subscriptionsOf c w -> edges_removed c [t] w w.
Proof.
  intros Hsym Ht. unfold edges_removed. split_and!; try done.
  - intros q. destruct (decide (q ∈ [t])) as [->%list_elem_of_singleton|]; [| done].
    symmetry. apply Set_delete_absent. by rewrite (Hsym c t).
  - intros d. destruct (decide (d = c)) as [->|]; [| done].
    rewrite filter_not_in_singleton. symmetry. by apply Set_delete_absent.
Qed.

(** ** [unsubscribe] *)

Lemma unsubscribe_target_Normal c t w ss ds :
  subscriptions (mgr w) !! c = Some ss ->
  dependents (mgr w) !! t = Some ds ->
  unsubscribe_target c t w =
  (Normal tt,
   with_dependents <[t := Set_delete c ds]>
     (with_subscriptions <[c := Set_delete t ss]> w)).
Proof.
  intros Hs Hd. unfold unsubscribe_target, bind, gets, modify, throw. simpl.
  rewrite Hs. simpl. by rewrite Hd.
Qed.

Lemma unsubscribe_target_no_client c t w :
  subscriptions (mgr w) !! c = None ->
  unsubscribe_target c t w = (Throw TypeError, w).
Proof.
  intros Hs. unfold unsubscribe_target, bind, gets, modify, throw. simpl.
  by rewrite Hs.
Qed.

Lemma unsubscribe_target_no_path c t w ss :
  subscriptions (mgr w) !! c = Some ss ->
  dependents (mgr w) !! t = None ->
  unsubscribe_target c t w =
  (Throw TypeError, with_subscriptions <[c := Set_delete t ss]> w).
Proof.
  intros Hs Hd. unfold unsubscribe_target, bind, gets, modify, throw. simpl.
  rewrite Hs. simpl. by rewrite Hd.
Qed.

(** On a symmetric graph the callback of [unsubscribe] takes out one edge,
    also when it throws. *)
Lemma unsubscribe_target_removes c t w :
  symmetric w -> edges_removed c [t] w (snd (unsubscribe_target c t w)).
Proof.
  intros Hsym.
  destruct (subscriptions (mgr w) !! c) as [ss|] eqn:Hs.
  - pose proof (subscriptionsOf_lookup _ _ _ Hs) as Hss.
    destruct (dependents (mgr w) !! t) as [ds|] eqn:Hd.
    + pose proof (dependentsOf_lookup _ _ _ Hd) as Hds.
      rewrite (unsubscribe_target_Normal _ _ _ _ _ Hs Hd). simpl.
      unfold edges_removed. split_and!; try done.
      * intros q. rewrite dependentsOf_with_dependents_insert.
        destruct (decide (q = t)) as [->|Hq].
        -- rewrite decide_True by (by apply list_elem_of_singleton).
           unfold dependentsOf at 1. simpl. by rewrite Hd.
        -- rewrite decide_False by (by rewrite list_elem_of_singleton).
           done.
      * intros d. unfold subscriptionsOf at 1. simpl.
        destruct (decide (d = c)) as [->|Hdc].
        -- rewrite lookup_insert_eq. simpl. by rewrite filter_not_in_singleton, Hss.
        -- by rewrite lookup_insert_ne.
    + rewrite (unsubscribe_target_no_path _ _ _ _ Hs Hd). simpl.
      assert (t ∉ ss) as Ht.
      { rewrite <- Hss, <- (Hsym c t). unfold dependentsOf. rewrite Hd.
        apply not_elem_of_nil. }
      rewrite (Set_delete_absent _ _ Ht).
      replace (with_subscriptions <[c:=ss]> w) with w.
      { apply edges_removed_absent; [done | by rewrite Hss]. }
      unfold with_subscriptions. rewrite (insert_id _ _ _ Hs).
      by destruct w as [[] ? ? ?].
  - rewrite (unsubscribe_target_no_client _ _ _ Hs). simpl.
    apply edges_removed_absent; [done |].
    unfold subscriptionsOf. rewrite Hs. apply not_elem_of_nil.
Qed.

Lemma unsubscribe_target_present c t w :
  symmetric w -> t ∈ subscriptionsOf c w ->
  fst (unsubscribe_target c t w) = Normal tt.
Proof.
  intros Hsym Ht.
  destruct (subscriptionsOf_elem_is_Some _ _ _ Ht) as [ss Hs].
  apply (Hsym c t) in Ht.
  destruct (dependentsOf_elem_is_Some _ _ _ Ht) as [ds Hd].
  by rewrite (unsubscribe_target_Normal _ _ _ _ _ Hs Hd).
Qed.

Lemma unsubscribe_all_removes c ts w :
  symmetric w ->
  exists w', Set_forEach (subscriptionsOf c) (unsubscribe_target c) ts w = (Normal tt, w')
             /\ edges_removed c ts w w'.
Proof.
  revert w. induction ts as [|t ts IH]; intros w Hsym; simpl.
  - exists w. split; [done | apply edges_removed_nil].
  - destruct (decide (t ∈ subscriptionsOf c w)) as [Ht|Ht].
    + pose proof (unsubscribe_target_present c t w Hsym Ht) as Hok.
      pose proof (unsubscribe_target_removes c t w Hsym) as Hrem.
      unfold bind. destruct (unsubscribe_target c t w) as [r w1].
      simpl in Hok, Hrem. subst r.
      destruct (IH w1) as (w2 & Hrun & Hrem2).
      { by eapply edges_removed_symmetric. }
      exists w2. split; [done | by eapply edges_removed_cons].
    + destruct (IH w Hsym) as (w2 & Hrun & Hrem2).
      exists w2. split; [done |].
      eapply edges_removed_cons; [by apply edges_removed_absent | done].
Qed.

Lemma unsubscribe_truthy c path p w :
  truthy path = Some p ->
  unsubscribe c path w = (unsubscribe_target c p ;; ret tt) w.
Proof. intros Hp. unfold unsubscribe, bind at 1, gets. simpl. by rewrite Hp. Qed.

Lemma unsubscribe_removes c path w :
  symmetric w ->
  edges_removed c (unsubscribe_targets c path w) w (snd (unsubscribe c path w)).
Proof.
  intros Hsym. unfold unsubscribe_targets.
  destruct (truthy path) as [p|] eqn:Hp.
  - rewrite (unsubscribe_truthy _ _ _ _ Hp). unfold bind, ret.
    pose proof (unsubscribe_target_removes c p w Hsym) as Hrem.
    by destruct (unsubscribe_target c p w) as [[[]|e] w1].
  - unfold unsubscribe, bind, gets, throw. simpl. rewrite Hp.
    destruct (subscriptions (mgr w) !! c) as [ss|] eqn:Hs.
    + rewrite (subscriptionsOf_lookup _ _ _ Hs).
      destruct (unsubscribe_all_removes c ss w Hsym) as (w' & -> & Hrem). done.
    + unfold subscriptionsOf. rewrite Hs. simpl. apply edges_removed_nil.
Qed.

Lemma unsubscribe_Normal c path w :
  symmetric w ->
  is_Some (subscriptions (mgr w) !! c) ->
  (forall p, truthy path = Some p -> is_Some (dependents (mgr w) !! p)) ->
  fst (unsubscribe c path w) = Normal tt.
Proof.
  intros Hsym [ss Hs] Hpath.
  destruct (truthy path) as [p|] eqn:Hp.
  - rewrite (unsubscribe_truthy _ _ _ _ Hp).
    destruct (Hpath p eq_refl) as [ds Hd]. unfold bind, ret.
    by rewrite (unsubscribe_target_Normal _ _ _ _ _ Hs Hd).
  - unfold unsubscribe, bind, gets. simpl. rewrite Hp, Hs.
    by destruct (unsubscribe_all_removes c ss w Hsym) as (w' & -> & _).
Qed.

Lemma truthy_Some_elem c p w :
  symmetric w -> c ∈ dependentsOf p w -> p ∈ unsubscribe_targets c (Some p) w.
Proof.
  intros Hsym Hc. unfold unsubscribe_targets, truthy.
  destruct (decide (p = "")); [by apply (Hsym c p) | by apply list_elem_of_singleton].
Qed.

(** What the eviction cascade relies on: unsubscribing a dependent of [p]
    from [p] returns and takes that client out of the dependents of [p]. *)
Lemma unsubscribe_dependent c p w :
  symmetric w -> c ∈ dependentsOf p w ->
  exists w', unsubscribe c (Some p) w = (Normal tt, w') /\
             symmetric w' /\
             dependentsOf p w' = Set_delete c (dependentsOf p w) /\
             (p ∉ subscriptionsOf c w') /\
             cache (mgr w') = cache (mgr w) /\
             trace w' = trace w /\
             generator (mgr w') = generator (mgr w) /\
             pending w' = pending w /\
             seen w' = seen w.
Proof.
  intros Hsym Hc.
  pose proof (unsubscribe_removes c (Some p) w Hsym) as Hrem.
  pose proof (truthy_Some_elem c p w Hsym Hc) as Hp.
  assert (fst (unsubscribe c (Some p) w) = Normal tt) as Hok.
  { apply unsubscribe_Normal; [done | |].
    - eapply subscriptionsOf_elem_is_Some. by apply (Hsym c p).
    - intros p'. unfold truthy. destruct (decide (p = "")); [done |].
      intros [= <-]. by eapply dependentsOf_elem_is_Some. }
  destruct (unsubscribe c (Some p) w) as [r w']. simpl in *. subst r.
  exists w'. split; [done |].
  pose proof (edges_removed_symmetric _ _ _ _ Hsym Hrem) as Hsym'.
  destruct Hrem as (Hd & Hs & Hca & Htr & Hg & Hpe & Hse).
  split_and!; try done.
  - by rewrite Hd, decide_True.
  - rewrite Hs, decide_True by done. rewrite list_elem_of_filter. tauto.
Qed.

(** ** The two fan-out loops of [update] *)

Lemma notify_loop p s w :
  (forall c, c ∈ s -> c ∈ dependentsOf p w) ->
  Set_forEach (dependentsOf p) (notify_dependent p) s w =
  (Normal tt,
   {| mgr := mgr w;
      trace := trace w ++
               map (fun c => Notify c p (default Undefined (cache (mgr w) !! p))) s;
      pending := pending w;
      seen := seen w ++ map (fun _ => mgr w) s |}).
Proof.
  revert w. induction s as [|c s IH]; intros w Hlive; simpl.
  - unfold ret. rewrite !app_nil_r. by destruct w.
  - rewrite decide_True by (apply Hlive; by left).
    unfold bind at 1, notify_dependent, bind at 1, gets, invoke, modify. simpl.
    rewrite IH.
    + simpl. by rewrite <- !app_assoc.
    + intros c' Hc'. apply (Hlive c'). by right.
Qed.

Lemma symmetric_same_graph w w' :
  dependents (mgr w') = dependents (mgr w) ->
  subscriptions (mgr w') = subscriptions (mgr w) ->
  symmetric w -> symmetric w'.
Proof.
  intros Hd Hs Hsym c p. unfold dependentsOf, subscriptionsOf.
  rewrite Hd, Hs. apply Hsym.
Qed.

Lemma graph_inv_same_graph w w' :
  dependents (mgr w') = dependents (mgr w) ->
  subscriptions (mgr w') = subscriptions (mgr w) ->
  graph_inv w -> graph_inv w'.
Proof.
  intros Hd Hs (Hsym & Hnd & Hns). split_and!.
  - by eapply symmetric_same_graph.
  - intros p. unfold dependentsOf. rewrite Hd. apply Hnd.
  - intros c. unfold subscriptionsOf. rewrite Hs. apply Hns.
Qed.

Lemma evict_loop p s w :
  symmetric w -> NoDup s -> dependentsOf p w = s ->
  exists w',
    Set_forEach (dependentsOf p) (evict_dependent p) s w = (Normal tt, w') /\
    symmetric w' /\
    dependentsOf p w' = [] /\
    cache (mgr w') = cache (mgr w) /\
    generator (mgr w') = generator (mgr w) /\
    trace w' = trace w ++ map (fun c => Notify c p Undefined) s /\
    map fst (Set_forEach_visits (dependentsOf p) (evict_dependent p) s w) = s /\
    (forall c wc,
        (c, wc) ∈ Set_forEach_visits (dependentsOf p) (evict_dependent p) s w ->
        exists wu, unsubscribe c (Some p) wc = (Normal tt, wu) /\
                   (c ∉ dependentsOf p wu) /\
                   (p ∉ subscriptionsOf c wu) /\
                   evict_dependent p c wc = invoke c p Undefined wu) /\
    pending w' = pending w /\
    (exists ms, seen w' = seen w ++ ms /\
                Forall2 (fun c m => ~ edge_in m c p) s ms).
Proof.
  revert w. induction s as [|c s IH]; intros w Hsym Hnd Hdeps; simpl.
  - exists w. rewrite app_nil_r. split_and!; try done.
    + intros c wc Hin. by apply elem_of_nil in Hin.
    + exists []. by rewrite app_nil_r.
  - rewrite !decide_True by (rewrite Hdeps; by left).
    destruct (unsubscribe_dependent c p w Hsym) as
      (w1 & Hun & Hsym1 & Hd1 & Hs1 & Hc1 & Ht1 & Hg1 & Hp1 & Ho1).
    { rewrite Hdeps. by left. }
    rewrite Hdeps, (Set_delete_head _ _ Hnd) in Hd1.
    assert (evict_dependent p c w = invoke c p Undefined w1) as Hbody.
    { unfold evict_dependent, bind. by rewrite Hun. }
    unfold bind at 1. rewrite Hbody. unfold invoke at 1 3, modify.
    destruct (IH (emit (Notify c p Undefined) (observe w1))) as
      (w2 & Hrun & Hsym2 & Hd2 & Hc2 & Hg2 & Ht2 & Hv1 & Hv2 & Hp2 & ms & Ho2 & Hms).
    { by apply (symmetric_same_graph w1). }
    { by apply NoDup_cons in Hnd as [_ ?]. }
    { done. }
    simpl in Hc2, Hg2, Ht2, Hp2, Ho2.
    exists w2. split_and!; try done.
    + congruence.
    + congruence.
    + rewrite Ht2. simpl. rewrite Ht1. by rewrite <- app_assoc.
    + simpl. by rewrite Hv1.
    + intros c' wc [Heq|Hin]%elem_of_cons.
      * injection Heq as -> ->. exists w1. split_and!; try done.
        rewrite Hd1. by apply NoDup_cons in Hnd as [? _].
      * by apply Hv2.
    + congruence.
    + exists (mgr w1 :: ms). split.
      * rewrite Ho2, Ho1. by rewrite <- app_assoc.
      * constructor; [| done]. intros [Hin|Hin].
        -- apply NoDup_cons in Hnd as [Hc _]. apply Hc. by rewrite <- Hd1.
        -- by apply Hs1.
Qed.

(** ** [update], branch by branch *)

Lemma update_resume_success p r w :
  isError r = false ->
  update_resume p r w =
  (Normal r,
   {| mgr := mgr (with_cache <[p := payload r]> w);
      trace := trace w ++ map (fun c => Notify c p (payload r)) (dependentsOf p w);
      pending := pending w;
      seen := seen w ++ map (fun _ => mgr (with_cache <[p := payload r]> w))
                            (dependentsOf p w) |}).
Proof.
  intros Hok. unfold update_resume. rewrite Hok. simpl negb. cbv iota.
  unfold bind at 1 2 3, modify, gets, ret. unfold dependentsOf at 2 3.
  cbn [mgr with_cache dependents].
  destruct (dependents (mgr w) !! p) as [s|] eqn:Hd; simpl.
  - rewrite notify_loop.
    + simpl. by rewrite lookup_insert_eq.
    + intros c Hc. unfold dependentsOf. simpl. by rewrite Hd.
  - by rewrite !app_nil_r.
Qed.

Lemma update_resume_other_error p r w :
  isError r = true -> status r ≠ 404%Z -> update_resume p r w = (Normal r, w).
Proof.
  intros Herr Hst. unfold update_resume. rewrite Herr. simpl negb. cbv iota.
  destruct (Z.eqb_spec (status r) 404); [done |]. reflexivity.
Qed.

Lemma update_resume_404 p r w :
  symmetric w -> NoDup (dependentsOf p w) ->
  isError r = true -> status r = 404%Z ->
  let w0 := with_cache (delete p) w in
  exists w',
    update_resume p r w = (Normal r, w') /\
    symmetric w' /\
    dependentsOf p w' = [] /\
    cache (mgr w') = delete p (cache (mgr w)) /\
    generator (mgr w') = generator (mgr w) /\
    trace w' = trace w ++ map (fun c => Notify c p Undefined) (dependentsOf p w) /\
    map fst (Set_forEach_visits (dependentsOf p) (evict_dependent p)
               (dependentsOf p w) w0) = dependentsOf p w /\
    (forall c wc,
        (c, wc) ∈ Set_forEach_visits (dependentsOf p) (evict_dependent p)
                    (dependentsOf p w) w0 ->
        exists wu, unsubscribe c (Some p) wc = (Normal tt, wu) /\
                   (c ∉ dependentsOf p wu) /\
                   (p ∉ subscriptionsOf c wu) /\
                   evict_dependent p c wc = invoke c p Undefined wu) /\
    pending w' = pending w /\
    (exists ms, seen w' = seen w ++ ms /\
                Forall2 (fun c m => ~ edge_in m c p) (dependentsOf p w) ms).
Proof.
  intros Hsym Hnd Herr Hst w0. unfold update_resume.
  rewrite Herr, Hst. simpl negb. cbv iota.
  change (404 =? 404)%Z with true. cbv iota.
  unfold bind at 1 2 3, modify, gets, ret. fold w0.
  assert (symmetric w0) as Hsym0 by (by apply (symmetric_same_graph w)).
  assert (dependentsOf p w0 = dependentsOf p w) as Hd0 by done.
  change (dependents (mgr w0)) with (dependents (mgr w)).
  destruct (dependents (mgr w) !! p) as [s|] eqn:Hd.
  - pose proof (dependentsOf_lookup _ _ _ Hd) as Hs. rewrite Hs in *.
    destruct (evict_loop p s w0 Hsym0 Hnd Hd0) as
      (w' & Hrun & Hsym' & Hd' & Hc' & Hg' & Ht' & Hv1 & Hv2 & Hp' & Ho').
    rewrite Hrun. exists w'. split_and!; done.
  - assert (dependentsOf p w = []) as Hs by (unfold dependentsOf; by rewrite Hd).
    rewrite Hs in *. exists w0. split_and!; try done.
    + simpl. by rewrite app_nil_r.
    + intros c wc Hin. by apply elem_of_nil in Hin.
    + exists []. simpl. by rewrite app_nil_r.
Qed.

(** ** Properties kept by the methods *)

Ltac preserves_step :=
  lazymatch goal with
  | |- preserves _ (bind _ _) => apply preserves_bind; [| intros ?]
  | |- preserves _ (ret _) => apply preserves_ret
  | |- preserves _ (throw _) => apply preserves_throw
  | |- preserves _ (gets _) => apply preserves_gets
  | |- preserves _ (Set_forEach _ _ _) => apply preserves_Set_forEach; intros ?
  | |- preserves _ (Array_forEach _ _) => apply preserves_Array_forEach; intros ?
  | |- preserves _ (match ?x with _ => _ end) => destruct x
  end.

Section KeptByGraphUpdates.
Context (I : World -> Prop).
Hypothesis I_subscriptions :
  forall c l w, I w -> I (with_subscriptions <[c := l]> w).
Hypothesis I_dependents :
  forall p l w, I w -> I (with_dependents <[p := l]> w).

Lemma preserves_subscribe_of_inserts c p : preserves I (subscribe c p).
Proof.
  unfold subscribe.
  repeat preserves_step; apply preserves_modify; auto.
Qed.

Lemma preserves_unsubscribe_target_of_inserts c t :
  preserves I (unsubscribe_target c t).
Proof.
  unfold unsubscribe_target.
  repeat preserves_step; apply preserves_modify; auto.
Qed.

Lemma preserves_unsubscribe_of_inserts c path : preserves I (unsubscribe c path).
Proof.
  unfold unsubscribe.
  repeat preserves_step; apply preserves_unsubscribe_target_of_inserts.
Qed.
End KeptByGraphUpdates.

Section KeptByUpdate.
Context (I : World -> Prop).
Hypothesis I_cache : forall f w, I w -> I (with_cache f w).
Hypothesis I_notify : forall c p v w, I w -> I (emit (Notify c p v) (observe w)).
Hypothesis I_unsubscribe : forall c path, preserves I (unsubscribe c path).

Lemma preserves_invoke c p v : preserves I (invoke c p v).
Proof. apply preserves_modify. auto. Qed.

Lemma preserves_update_resume p r : preserves I (update_resume p r).
Proof.
  unfold update_resume, notify_dependent, evict_dependent.
  apply preserves_bind; [| intros ?; apply preserves_ret].
  destruct (negb (isError r)); [| destruct (status r =? 404)%Z].
  - repeat preserves_step; try apply preserves_invoke.
    apply preserves_modify. auto.
  - repeat preserves_step;
      try apply preserves_invoke; try apply I_unsubscribe.
    apply preserves_modify. auto.
  - apply preserves_ret.
Qed.

Hypothesis I_call : forall v p d w, I w -> I (emit (Call v p d) w).

Lemma preserves_call_generator v p d : preserves I (call_generator v p d).
Proof. intros w Hw. by apply I_call. Qed.

Lemma preserves_update p : preserves I (update p).
Proof.
  unfold update. apply preserves_bind;
    [apply preserves_call_generator | intros r; apply preserves_update_resume].
Qed.

Lemma preserves_get p d : preserves I (get p d).
Proof.
  unfold get. repeat preserves_step. apply preserves_update.
Qed.

Hypothesis I_pending : forall f w, I w -> I (with_pending f w).

Lemma preserves_mutate v p d : preserves I (mutate v p d).
Proof.
  unfold mutate. apply preserves_bind; [apply preserves_call_generator |].
  intros r. apply preserves_bind; [| intros ?; apply preserves_ret].
  destruct (negb (isError r)); [| apply preserves_ret].
  unfold update_unawaited.
  apply preserves_bind; [apply preserves_call_generator |].
  intros r'. apply preserves_modify. auto.
Qed.

Lemma preserves_settle p i : preserves I (settle p i).
Proof.
  intros w Hw. unfold settle.
  destruct (pending w !! i) as [[p' r]|]; [| done].
  destruct (decide (p' = p)); [| done]. cbn [snd].
  apply preserves_update_resume. auto.
Qed.

Hypothesis I_subscribe : forall c p, preserves I (subscribe c p).

Lemma preserves_exec o w : I w -> I (exec o w).
Proof.
  destruct o; simpl.
  - apply I_subscribe.
  - apply I_unsubscribe.
  - apply preserves_get.
  - apply preserves_update.
  - apply preserves_mutate.
  - apply preserves_mutate.
  - apply preserves_mutate.
  - apply preserves_mutate.
  - apply preserves_update_resume.
  - apply preserves_settle.
Qed.

Lemma preserves_exec_all os w : I w -> I (exec_all os w).
Proof.
  revert w. induction os as [|o os IH]; intros w Hw; simpl; [done |].
  apply IH. by apply preserves_exec.
Qed.
End KeptByUpdate.

(** ** The representation invariant holds in every reachable world *)

Lemma graph_inv_init gen : graph_inv (init gen).
Proof.
  split_and!.
  - intros c p. unfold dependentsOf, subscriptionsOf. simpl.
    rewrite !lookup_empty. simpl. by rewrite !elem_of_nil.
  - intros p. unfold dependentsOf. simpl. rewrite lookup_empty. apply NoDup_nil_2.
  - intros c. unfold subscriptionsOf. simpl. rewrite lookup_empty. apply NoDup_nil_2.
Qed.

Lemma graph_inv_subscribe c p : preserves graph_inv (subscribe c p).
Proof.
  intros w (Hsym & Hnd & Hns). rewrite subscribe_eq. simpl.
  assert (forall q, dependentsOf q
            (with_subscriptions <[c := Set_add p (subscriptionsOf c w)]>
               (with_dependents <[p := Set_add c (dependentsOf p w)]> w)) =
          if decide (q = p) then Set_add c (dependentsOf p w) else dependentsOf q w)
    as Hd.
  { intros q. apply (dependentsOf_with_dependents_insert q p _ w). }
  assert (forall d, subscriptionsOf d
            (with_subscriptions <[c := Set_add p (subscriptionsOf c w)]>
               (with_dependents <[p := Set_add c (dependentsOf p w)]> w)) =
          if decide (d = c) then Set_add p (subscriptionsOf c w) else subscriptionsOf d w)
    as Hs.
  { intros d. rewrite subscriptionsOf_with_subscriptions_insert.
    by destruct (decide (d = c)). }
  split_and!.
  - intros c' p'. rewrite Hd, Hs.
    destruct (decide (p' = p)) as [->|Hp]; destruct (decide (c' = c)) as [->|Hc];
      rewrite ?elem_of_Set_add, ?(Hsym _ _); tauto.
  - intros q. rewrite Hd. destruct (decide (q = p)); [by apply NoDup_Set_add | done].
  - intros d. rewrite Hs. destruct (decide (d = c)); [by apply NoDup_Set_add | done].
Qed.

Lemma graph_inv_unsubscribe c path : preserves graph_inv (unsubscribe c path).
Proof.
  intros w Hw. eapply edges_removed_graph_inv; [done |].
  apply unsubscribe_removes. by destruct Hw.
Qed.

Lemma graph_inv_exec o w : graph_inv w -> graph_inv (exec o w).
Proof.
  apply preserves_exec.
  - intros f w'. by apply graph_inv_same_graph.
  - intros c p v w'. by apply graph_inv_same_graph.
  - apply graph_inv_unsubscribe.
  - intros v p d w'. by apply graph_inv_same_graph.
  - intros f w'. by apply graph_inv_same_graph.
  - apply graph_inv_subscribe.
Qed.

Lemma reachable_graph_inv w : reachable w -> graph_inv w.
Proof.
  induction 1 as [gen|o w _ IH]; [apply graph_inv_init | by apply graph_inv_exec].
Qed.

Lemma reachable_exec_all os w : reachable w -> reachable (exec_all os w).
Proof.
  revert w. induction os as [|o os IH]; intros w Hw; simpl; [done |].
  apply IH. by apply reachable_step.
Qed.

(** * The claims *)

(** C3 (symmetry invariant): in every world reachable from a fresh manager by
    subscribe, unsubscribe, get, update, post, put, patch and delete (and by
    resumed updates), a client is among the dependents of a path exactly when
    that path is among the subscriptions of the client. *)
Theorem symmetry_invariant (w : World) (c : client) (p : string) :
  reachable w ->
  c ∈ dependentsOf p w <-> p ∈ subscriptionsOf c w.
Proof. intros Hw. by apply reachable_graph_inv in Hw as [Hsym _]. Qed.

Lemma symmetry_invariant_witness :
  let w := exec_all [Subscribe 1 "/a"; Subscribe 2 "/a"; DoGet "/a" Undefined;
                     Unsubscribe 1 None; DoDelete "/a"]
             (init sample_backend) in
  reachable w /\ (2%nat ∈ dependentsOf "/a" w <-> "/a" ∈ subscriptionsOf 2 w).
Proof.
  split.
  - apply reachable_exec_all, reachable_init.
  - apply symmetry_invariant. apply reachable_exec_all, reachable_init.
Defined.

(** C8 (idempotent subscribe): [subscribe(c, p)] always returns normally, and
    calling it a second time leaves the whole world, both indexes included,
    exactly as the first call left it. *)
Theorem subscribe_idempotent (c : client) (p : string) (w : World) :
  fst (subscribe c p w) = Normal tt /\
  subscribe c p (snd (subscribe c p w)) = (Normal tt, snd (subscribe c p w)).
Proof.
  split; [by rewrite subscribe_eq |].
  rewrite (subscribe_eq c p w). cbn [snd]. rewrite subscribe_eq.
  rewrite subscriptionsOf_with_subscriptions_insert, decide_True by done.
  change (dependentsOf p (with_subscriptions ?f ?w')) with (dependentsOf p w').
  rewrite dependentsOf_with_dependents_insert, decide_True by done.
  rewrite !Set_add_idemp.
  unfold with_subscriptions, with_dependents. simpl.
  by rewrite !insert_insert_eq.
Qed.

(** C6 (a non-404 error is inert): when the generator answers [update(p)] with
    an error whose status is not 404, [update] returns that answer, the
    manager (cache, dependents, subscriptions) is the one from before the
    call, and the only new event is the generator call: no client is
    invoked. *)
Theorem update_other_error_inert (p : string) (w : World) :
  let r := generator (mgr w) (trace w) Get p Undefined in
  isError r = true -> status r ≠ 404%Z ->
  exists w', update p w = (Normal r, w') /\
             mgr w' = mgr w /\
             trace w' = trace w ++ [Call Get p Undefined].
Proof.
  intros r Herr Hst. exists (emit (Call Get p Undefined) w).
  unfold update, bind, call_generator. fold r.
  by rewrite update_resume_other_error.
Qed.

Lemma update_other_error_inert_witness :
  let w := exec_all [Subscribe 1 "/broken"; Subscribe 2 "/a"; DoGet "/a" Undefined]
             (init sample_backend) in
  let r := generator (mgr w) (trace w) Get "/broken" Undefined in
  (isError r = true /\ status r ≠ 404%Z) /\
  exists w', update "/broken" w = (Normal r, w') /\
             mgr w' = mgr w /\
             trace w' = trace w ++ [Call Get "/broken" Undefined].
Proof.
  split.
  - split; [reflexivity | discriminate].
  - apply update_other_error_inert; [reflexivity | discriminate].
Defined.

(** ** Counting events *)

Lemma notifications_to_skip c p v s :
  c ∉ s -> notifications_to c (map (fun c' => Notify c' p v) s) = [].
Proof.
  induction s as [|x s IH]; intros Hc; [done |].
  apply not_elem_of_cons in Hc as [Hne Hc]. unfold notifications_to in *.
  simpl. rewrite decide_False by congruence. by apply IH.
Qed.

Lemma notifications_to_fanout c p v s :
  NoDup s -> c ∈ s ->
  notifications_to c (map (fun c' => Notify c' p v) s) = [(p, v)].
Proof.
  induction s as [|x s IH]; intros Hnd Hc; [by apply elem_of_nil in Hc |].
  apply NoDup_cons in Hnd as [Hx Hnd].
  unfold notifications_to in *. simpl.
  destruct (decide (x = c)) as [->|Hne].
  - f_equal. by apply (notifications_to_skip c p v s).
  - apply elem_of_cons in Hc as [->|Hc]; [done |]. by apply IH.
Qed.

Lemma resolver_calls_fanout p v (s : list client) :
  resolver_calls (map (fun c => Notify c p v) s) = [].
Proof. by induction s. Qed.

(** Whatever the answer and whatever the world, the continuation of [update]
    makes no generator call. *)
Lemma update_resume_quiet p r w :
  exists evs, trace (snd (update_resume p r w)) = trace w ++ evs /\
              resolver_calls evs = [].
Proof.
  apply (preserves_update_resume
           (fun w' => exists evs, trace w' = trace w ++ evs /\ resolver_calls evs = [])).
  - intros f w' Hw'. exact Hw'.
  - intros c q v w' (evs & Ht & Hq). exists (evs ++ [Notify c q v]). split.
    + simpl. by rewrite Ht, app_assoc.
    + unfold resolver_calls in *. by rewrite omap_app, Hq.
  - intros c path. apply preserves_unsubscribe_of_inserts; by intros.
  - exists []. by rewrite app_nil_r.
Qed.

Lemma update_calls p w :
  resolver_calls (trace (snd (update p w))) =
  resolver_calls (trace w) ++ [(Get, p, Undefined)].
Proof.
  unfold update, bind at 1, call_generator.
  destruct (update_resume_quiet p (generator (mgr w) (trace w) Get p Undefined)
              (emit (Call Get p Undefined) w)) as (evs & Ht & Hq).
  rewrite Ht. simpl. unfold resolver_calls in *.
  by rewrite !omap_app, Hq, app_nil_r.
Qed.

(** C5 (successful update): [update(p)] calls the generator with verb "get" on
    [p] and with no other call; when the answer is not an error, [update]
    returns it, the cache maps [p] to its payload, the graph is untouched, and
    the callbacks invoked are those of the dependents of [p], in Set order,
    each once, with [p] and the value just cached. *)
Theorem update_success_fanout (p : string) (w : World) :
  reachable w ->
  let r := generator (mgr w) (trace w) Get p Undefined in
  resolver_calls (trace (snd (update p w))) =
    resolver_calls (trace w) ++ [(Get, p, Undefined)] /\
  (isError r = false ->
   exists w',
     update p w = (Normal r, w') /\
     cache (mgr w') = <[p := payload r]> (cache (mgr w)) /\
     cache (mgr w') !! p = Some (payload r) /\
     dependents (mgr w') = dependents (mgr w) /\
     subscriptions (mgr w') = subscriptions (mgr w) /\
     trace w' = trace w ++ Call Get p Undefined ::
                  map (fun c => Notify c p (payload r)) (dependentsOf p w) /\
     (forall c, c ∈ dependentsOf p w ->
        notifications_to c
          (Call Get p Undefined ::
             map (fun c => Notify c p (payload r)) (dependentsOf p w)) =
        [(p, payload r)]) /\
     (forall c, c ∉ dependentsOf p w ->
        notifications_to c
          (Call Get p Undefined ::
             map (fun c => Notify c p (payload r)) (dependentsOf p w)) = [])).
Proof.
  intros Hw r. split; [apply update_calls |]. intros Hok.
  apply reachable_graph_inv in Hw as (_ & Hnd & _).
  unfold update, bind, call_generator. fold r.
  rewrite (update_resume_success _ _ _ Hok).
  eexists. split; [reflexivity |]. simpl. split_and!; try done.
  - by rewrite lookup_insert_eq.
  - by rewrite <- app_assoc.
  - intros c Hc. by apply (notifications_to_fanout c p (payload r)).
  - intros c Hc. by apply (notifications_to_skip c p (payload r)).
Qed.

Lemma update_success_fanout_witness :
  let w := exec_all [Subscribe 1 "/users/1"; Subscribe 2 "/users/1";
                     Subscribe 1 "/users/2"]
             (init sample_backend) in
  let r := generator (mgr w) (trace w) Get "/users/1" Undefined in
  (reachable w /\ isError r = false) /\
  exists w',
    update "/users/1" w = (Normal r, w') /\
    cache (mgr w') = <["/users/1" := payload r]> (cache (mgr w)) /\
    cache (mgr w') !! "/users/1" = Some (payload r) /\
    dependents (mgr w') = dependents (mgr w) /\
    subscriptions (mgr w') = subscriptions (mgr w) /\
    trace w' = trace w ++ Call Get "/users/1" Undefined ::
                 map (fun c => Notify c "/users/1" (payload r))
                   (dependentsOf "/users/1" w) /\
    (forall c, c ∈ dependentsOf "/users/1" w ->
       notifications_to c
         (Call Get "/users/1" Undefined ::
            map (fun c => Notify c "/users/1" (payload r))
              (dependentsOf "/users/1" w)) =
       [("/users/1", payload r)]) /\
    (forall c, c ∉ dependentsOf "/users/1" w ->
       notifications_to c
         (Call Get "/users/1" Undefined ::
            map (fun c => Notify c "/users/1" (payload r))
              (dependentsOf "/users/1" w)) = []).
Proof.
  split.
  - split; [apply reachable_exec_all, reachable_init | reflexivity].
  - apply update_success_fanout; [apply reachable_exec_all, reachable_init |].
    reflexivity.
Defined.

(** C4 (cache then serve): with a cache entry for [p], [get(p)] returns the
    success Result wrapping the cached value and leaves the world, trace
    included, as it was, so no generator call is made; without an entry,
    [get(p)] is [update(p)].  After an [update(p)] whose answer is not an
    error, [get(p)] is served from the cache. *)
Theorem get_serves_cache (p : string) (d : value) (w : World) :
  (forall v, cache (mgr w) !! p = Some v ->
     get p d w = (Normal (Reply_OK v), w) /\
     isError (Reply_OK v) = false /\ payload (Reply_OK v) = v) /\
  (cache (mgr w) !! p = None -> get p d w = update p w) /\
  (let r := generator (mgr w) (trace w) Get p Undefined in
   isError r = false ->
   exists w1, update p w = (Normal r, w1) /\
              get p d w1 = (Normal (Reply_OK (payload r)), w1)).
Proof.
  split_and!.
  - intros v Hv. unfold get, bind, gets, ret. by rewrite Hv.
  - intros Hv. unfold get, bind at 1, gets. by rewrite Hv.
  - intros r Hok. unfold update, bind at 1, call_generator. fold r.
    rewrite (update_resume_success _ _ _ Hok).
    eexists. split; [reflexivity |].
    unfold get, bind, gets, ret. simpl. by rewrite lookup_insert_eq.
Qed.

Lemma get_serves_cache_witness :
  let hit := exec_all [Subscribe 1 "/a"; DoGet "/a" Undefined] (init sample_backend) in
  let miss := exec_all [Subscribe 1 "/a"] (init sample_backend) in
  (cache (mgr hit) !! "/a" = Some (Str "/a") /\
   get "/a" Undefined hit = (Normal (Reply_OK (Str "/a")), hit)) /\
  (cache (mgr miss) !! "/a" = None /\
   get "/a" Undefined miss = update "/a" miss) /\
  (isError (generator (mgr miss) (trace miss) Get "/a" Undefined) = false /\
   exists w1,
     update "/a" miss =
       (Normal (generator (mgr miss) (trace miss) Get "/a" Undefined), w1) /\
     get "/a" Undefined w1 =
       (Normal (Reply_OK (payload (generator (mgr miss) (trace miss) Get "/a" Undefined))),
        w1)).
Proof.
  intros hit miss. split_and!.
  - reflexivity.
  - apply (proj1 (get_serves_cache "/a" Undefined hit) (Str "/a")). reflexivity.
  - reflexivity.
  - apply (proj1 (proj2 (get_serves_cache "/a" Undefined miss))). reflexivity.
  - reflexivity.
  - apply (proj2 (proj2 (get_serves_cache "/a" Undefined miss))). reflexivity.
Defined.

(** ** The mutating methods *)

Lemma new_events_app w w' evs : trace w' = trace w ++ evs -> new_events w w' = evs.
Proof. intros Ht. unfold new_events. by rewrite Ht, drop_app_length. Qed.

(** What happens when a pending refresh receives its answer. *)
Lemma settle_spec p r i w :
  graph_inv w -> pending w !! i = Some (p, r) ->
  exists w',
    settle p i w = (Normal tt, w') /\
    pending w' = delete i (pending w) /\
    cache (mgr w') =
      (if negb (isError r) then <[p := payload r]> (cache (mgr w))
       else if (status r =? 404)%Z then delete p (cache (mgr w))
       else cache (mgr w)) /\
    trace w' = trace w ++
      map (fun c => Notify c p (if isError r then Undefined else payload r))
          (if isError r && negb (status r =? 404)%Z then [] else dependentsOf p w) /\
    (isError r = true -> status r = 404%Z ->
     forall c, (c ∉ dependentsOf p w') /\ (p ∉ subscriptionsOf c w')) /\
    (isError r = false \/ status r ≠ 404%Z ->
     dependents (mgr w') = dependents (mgr w) /\
     subscriptions (mgr w') = subscriptions (mgr w)).
Proof.
  intros Hinv Hi. unfold settle. rewrite Hi, decide_True by done.
  set (w0 := with_pending (delete i) w).
  assert (graph_inv w0) as (Hsym0 & Hnd0 & _) by (by apply (graph_inv_same_graph w)).
  destruct (isError r) eqn:Herr; simpl.
  - destruct (Z.eqb_spec (status r) 404) as [Hst|Hst]; simpl.
    + destruct (update_resume_404 p r w0 Hsym0 (Hnd0 p) Herr Hst)
        as (w' & Hrun & Hsym' & Hd' & Hc' & _ & Ht' & _ & _ & Hp' & _).
      rewrite Hrun. exists w'. split_and!; try done.
      * intros _ _ c. assert (c ∉ dependentsOf p w') as Hc.
        { rewrite Hd'. apply not_elem_of_nil. }
        split; [done |]. by rewrite <- (Hsym' c p).
      * intros [?|?]; done.
    + rewrite (update_resume_other_error _ _ _ Herr Hst). exists w0.
      split_and!; try done. simpl. by rewrite app_nil_r.
  - rewrite (update_resume_success _ _ _ Herr). eexists.
    split; [reflexivity |]. simpl. split_and!; done.
Qed.

Lemma mutate_success v p d w :
  isError (generator (mgr w) (trace w) v p d) = false ->
  mutate v p d w =
  (Normal (generator (mgr w) (trace w) v p d),
   with_pending
     (fun q => q ++ [(p, generator (mgr w) (trace w ++ [Call v p d]) Get p Undefined)])
     (emit (Call Get p Undefined) (emit (Call v p d) w))).
Proof.
  intros Hr.
  unfold mutate, update_unawaited, bind, call_generator, modify, ret.
  by rewrite Hr.
Qed.

Lemma mutate_failure v p d w :
  isError (generator (mgr w) (trace w) v p d) = true ->
  mutate v p d w =
  (Normal (generator (mgr w) (trace w) v p d), emit (Call v p d) w).
Proof.
  intros Hr. unfold mutate, bind, call_generator, ret. by rewrite Hr.
Qed.

Lemma mutate_contract v p d w : mutation_contract (mutate v p d) v p d w.
Proof.
  unfold mutation_contract. split; intros Hr; [| by apply mutate_failure].
  split; [by apply mutate_success |]. intros Hw.
  set (r2 := generator (mgr w) (trace (emit (Call v p d) w)) Get p Undefined).
  set (w2 := with_pending (fun q => q ++ [(p, r2)])
               (emit (Call Get p Undefined) (emit (Call v p d) w))).
  destruct (settle_spec p r2 (length (pending w)) w2)
    as (w3 & Hrun & Hp3 & Hc3 & Ht3 & Hev & Hkeep).
  { apply (graph_inv_same_graph w); [done | done |]. by apply reachable_graph_inv. }
  { simpl. by apply list_lookup_middle. }
  exists w3. split_and!; try done.
  - rewrite Hp3. simpl. by rewrite delete_middle, app_nil_r.
  - by apply new_events_app.
Qed.

Lemma mutate_error v p d w : error_passthrough (mutate v p d) v p d w.
Proof.
  unfold error_passthrough. intros Hr. exists (emit (Call v p d) w).
  split; [| done]. by apply mutate_failure.
Qed.

(** C7 (a mutation triggers one refresh): [post], [put], [patch] and [delete]
    call the generator with their own verb.  When the answer is an error,
    nothing follows the verb call.  When it is not, the method asks the
    generator once more, with "get" on [p], leaves exactly one refresh of [p]
    pending and returns the answer of the verb call, whoever is subscribed;
    the manager is untouched when the method returns.  When that refresh
    receives its answer, in a reachable world, no other generator call is
    made and one fan-out round takes place: the cache takes the payload (or
    loses the entry on a 404) and the dependents of [p] are invoked, each
    once (nobody on another error). *)
Theorem mutation_refreshes_once (p : string) (d : value) (w : World) :
  mutation_contract (post p d) Post p d w /\
  mutation_contract (put p d) Put p d w /\
  mutation_contract (patch p d) Patch p d w /\
  mutation_contract (delete_ p) Delete p Null w.
Proof. split_and!; apply mutate_contract. Qed.

Lemma mutation_refreshes_once_witness :
  let w := exec_all [Subscribe 1 "/users/1"; Subscribe 2 "/users/1";
                     DoGet "/users/1" Undefined]
             (init store_backend) in
  let r := generator (mgr w) (trace w) Post "/users/1" (Str "Bob") in
  (isError r = false /\ reachable w /\
   cache (mgr w) !! "/users/1" = Some Null) /\
  exists w2 w3,
    post "/users/1" (Str "Bob") w = (Normal r, w2) /\
    mgr w2 = mgr w /\
    new_events w w2 =
      [Call Post "/users/1" (Str "Bob"); Call Get "/users/1" Undefined] /\
    pending w2 = [("/users/1", Reply_OK (Str "Bob"))] /\
    settle "/users/1" 0 w2 = (Normal tt, w3) /\
    pending w3 = [] /\
    cache (mgr w3) !! "/users/1" = Some (Str "Bob") /\
    new_events w2 w3 =
      [Notify 1 "/users/1" (Str "Bob"); Notify 2 "/users/1" (Str "Bob")].
Proof.
  intros w r.
  pose proof (reachable_exec_all
                [Subscribe 1 "/users/1"; Subscribe 2 "/users/1";
                 DoGet "/users/1" Undefined]
                _ (reachable_init store_backend)) as Hw.
  split; [split_and!; done |].
  destruct (proj1 (proj1 (mutation_refreshes_once "/users/1" (Str "Bob") w)) eq_refl)
    as [Hrun Hsettle].
  destruct (Hsettle Hw) as (w3 & Hset & Hp3 & Hc3 & Hev & _).
  eexists _, w3. split; [exact Hrun |].
  split_and!; try done.
  by rewrite Hc3.
Defined.

(** C9 (a failed mutation does not evict): when the generator answers a
    [post], [put], [patch] or [delete] with an error, 404 included, the method
    returns that answer and the manager is the one from before the call: the
    cache entry of [p] and every subscription stay. *)
Theorem mutation_error_no_eviction (p : string) (d : value) (w : World) :
  error_passthrough (post p d) Post p d w /\
  error_passthrough (put p d) Put p d w /\
  error_passthrough (patch p d) Patch p d w /\
  error_passthrough (delete_ p) Delete p Null w.
Proof. split_and!; apply mutate_error. Qed.

Lemma mutation_error_no_eviction_witness :
  let w := exec_all [Subscribe 1 "/a"; DoGet "/a" Undefined] (init read_only_backend) in
  let r := generator (mgr w) (trace w) Delete "/a" Null in
  (isError r = true /\ status r = 404%Z) /\
  (cache (mgr w) !! "/a" = Some (Str "/a") /\ dependentsOf "/a" w = [1%nat]) /\
  exists w', delete_ "/a" w = (Normal r, w') /\
             mgr w' = mgr w /\
             trace w' = trace w ++ [Call Delete "/a" Null].
Proof.
  intros w r. split_and!; try reflexivity.
  apply (proj2 (proj2 (proj2 (mutation_error_no_eviction "/a" Null w)))).
  reflexivity.
Defined.

(** C1 (eviction cascade): in a reachable world, when the generator answers
    [update(p)] with an error of status 404, [update] returns that answer;
    afterwards the cache has no entry for [p] and no client is subscribed to
    [p], in either index; the callbacks invoked are those of the clients that
    were dependents of [p], each once, with [p] and [undefined]; and the
    manager each of these callbacks is started against, as kept in [seen],
    no longer records the edge between its client and [p], in either index:
    the edge is removed before the callback runs. *)
Theorem update_404_eviction_cascade (p : string) (w : World) :
  reachable w ->
  let r := generator (mgr w) (trace w) Get p Undefined in
  isError r = true -> status r = 404%Z ->
  let fanout := Call Get p Undefined ::
                map (fun c => Notify c p Undefined) (dependentsOf p w) in
  let visits := Set_forEach_visits (dependentsOf p) (evict_dependent p)
                  (dependentsOf p w)
                  (with_cache (delete p) (emit (Call Get p Undefined) w)) in
  exists w',
    update p w = (Normal r, w') /\
    cache (mgr w') !! p = None /\
    (forall c, (c ∉ dependentsOf p w') /\ (p ∉ subscriptionsOf c w')) /\
    trace w' = trace w ++ fanout /\
    (forall c, c ∈ dependentsOf p w -> notifications_to c fanout = [(p, Undefined)]) /\
    (forall c, c ∉ dependentsOf p w -> notifications_to c fanout = []) /\
    map fst visits = dependentsOf p w /\
    (forall c wc, (c, wc) ∈ visits ->
       exists wu, unsubscribe c (Some p) wc = (Normal tt, wu) /\
                  (c ∉ dependentsOf p wu) /\
                  (p ∉ subscriptionsOf c wu) /\
                  evict_dependent p c wc = invoke c p Undefined wu) /\
    (exists ms, seen w' = seen w ++ ms /\
                Forall2 (fun c m => ~ edge_in m c p) (dependentsOf p w) ms).
Proof.
  intros Hw r Herr Hst fanout visits.
  apply reachable_graph_inv in Hw as (Hsym & Hnd & _).
  unfold update, bind at 1, call_generator. fold r.
  assert (symmetric (emit (Call Get p Undefined) w)) as Hsym0.
  { by apply (symmetric_same_graph w). }
  destruct (update_resume_404 p r (emit (Call Get p Undefined) w)
              Hsym0 (Hnd p) Herr Hst)
    as (w' & Hrun & Hsym' & Hd' & Hc' & _ & Ht' & Hv1 & Hv2 & _ & Ho').
  exists w'. split_and!; try done.
  - rewrite Hc'. apply lookup_delete_eq.
  - intros c. assert (c ∉ dependentsOf p w') as Hc.
    { rewrite Hd'. apply not_elem_of_nil. }
    split; [done |]. by rewrite <- (Hsym' c p).
  - rewrite Ht'. simpl. by rewrite <- app_assoc.
  - intros c Hc. by apply (notifications_to_fanout c p Undefined).
  - intros c Hc. by apply (notifications_to_skip c p Undefined).
Qed.

Lemma update_404_eviction_cascade_witness :
  let w := exec_all [DoDelete "/users/1"; Subscribe 1 "/users/1";
                     Subscribe 2 "/users/1"; Subscribe 1 "/users/2";
                     Resume "/users/1" (Reply_OK (Str "stale"))]
             (init sample_backend) in
  let r := generator (mgr w) (trace w) Get "/users/1" Undefined in
  (reachable w /\ isError r = true /\ status r = 404%Z) /\
  (dependentsOf "/users/1" w = [1%nat; 2%nat] /\
   cache (mgr w) !! "/users/1" = Some (Str "stale")) /\
  exists w',
    update "/users/1" w = (Normal r, w') /\
    cache (mgr w') !! "/users/1" = None /\
    (forall c, (c ∉ dependentsOf "/users/1" w') /\
               ("/users/1" ∉ subscriptionsOf c w')) /\
    trace w' = trace w ++
               [Call Get "/users/1" Undefined;
                Notify 1 "/users/1" Undefined;
                Notify 2 "/users/1" Undefined].
Proof.
  intros w r. split_and!; try reflexivity.
  - apply reachable_exec_all, reachable_init.
  - destruct (update_404_eviction_cascade "/users/1" w)
      as (w' & Hrun & Hc & Hg & Ht & _); try reflexivity.
    + apply reachable_exec_all, reachable_init.
    + exists w'. split_and!; done.
Defined.

(** ** Map entries are never removed *)

Lemma has_entries_exec c p o w :
  is_Some (subscriptions (mgr w) !! c) /\ is_Some (dependents (mgr w) !! p) ->
  is_Some (subscriptions (mgr (exec o w)) !! c) /\
  is_Some (dependents (mgr (exec o w)) !! p).
Proof.
  assert (forall c' l w',
    is_Some (subscriptions (mgr w') !! c) /\ is_Some (dependents (mgr w') !! p) ->
    is_Some (subscriptions (mgr (with_subscriptions <[c' := l]> w')) !! c) /\
    is_Some (dependents (mgr (with_subscriptions <[c' := l]> w')) !! p)) as Hs.
  { intros c' l w' [H1 H2]. simpl. split; [| done].
    apply lookup_insert_is_Some'. by right. }
  assert (forall p' l w',
    is_Some (subscriptions (mgr w') !! c) /\ is_Some (dependents (mgr w') !! p) ->
    is_Some (subscriptions (mgr (with_dependents <[p' := l]> w')) !! c) /\
    is_Some (dependents (mgr (with_dependents <[p' := l]> w')) !! p)) as Hd.
  { intros p' l w' [H1 H2]. simpl. split; [done |].
    apply lookup_insert_is_Some'. by right. }
  apply (preserves_exec
           (fun w' => is_Some (subscriptions (mgr w') !! c) /\
                      is_Some (dependents (mgr w') !! p))).
  - by intros f w'.
  - by intros c' q v w'.
  - intros c' path. by apply preserves_unsubscribe_of_inserts.
  - by intros v q d w'.
  - by intros f w'.
  - intros c' q. by apply preserves_subscribe_of_inserts.
Qed.

Lemma has_entries_exec_all c p os w :
  is_Some (subscriptions (mgr w) !! c) /\ is_Some (dependents (mgr w) !! p) ->
  is_Some (subscriptions (mgr (exec_all os w)) !! c) /\
  is_Some (dependents (mgr (exec_all os w)) !! p).
Proof.
  revert w. induction os as [|o os IH]; intros w Hw; simpl; [done |].
  apply IH. by apply has_entries_exec.
Qed.

Lemma has_entries_subscribe c p w :
  is_Some (subscriptions (mgr (exec (Subscribe c p) w)) !! c) /\
  is_Some (dependents (mgr (exec (Subscribe c p) w)) !! p).
Proof. simpl. rewrite subscribe_eq. simpl. by rewrite !lookup_insert_eq. Qed.

Lemma filter_not_in_self (s : list string) : filter (fun t => t ∉ s) s = [].
Proof.
  apply elem_of_nil_inv. intros x. rewrite list_elem_of_filter. tauto.
Qed.

Lemma lookup_of_view_subscriptions c w :
  is_Some (subscriptions (mgr w) !! c) ->
  subscriptions (mgr w) !! c = Some (subscriptionsOf c w).
Proof. intros [s Hs]. by rewrite (subscriptionsOf_lookup _ _ _ Hs). Qed.

Lemma lookup_of_view_dependents p w :
  is_Some (dependents (mgr w) !! p) ->
  dependents (mgr w) !! p = Some (dependentsOf p w).
Proof. intros [s Hs]. by rewrite (dependentsOf_lookup _ _ _ Hs). Qed.

(** C10 (entries stay): once [subscribe(c, p)] has run in a reachable world,
    whatever operations follow, the subscriptions Map has an entry for [c] and
    the dependents Map has an entry for [p].  Unsubscribing [c] from
    everything then returns and leaves [c] mapped to the empty Set, and a 404
    answer to a refresh of [p] leaves [p] mapped to the empty Set. *)
Theorem subscribed_entries_persist (c : client) (p : string) (os : list op)
    (w : World) :
  reachable w ->
  let w2 := exec_all os (exec (Subscribe c p) w) in
  is_Some (subscriptions (mgr w2) !! c) /\
  is_Some (dependents (mgr w2) !! p) /\
  (exists w3, unsubscribe c None w2 = (Normal tt, w3) /\
              subscriptions (mgr w3) !! c = Some [] /\
              is_Some (dependents (mgr w3) !! p)) /\
  (forall path, is_Some (subscriptions (mgr (exec (Unsubscribe c path) w2)) !! c)) /\
  (forall r, isError r = true -> status r = 404%Z ->
     dependents (mgr (exec (Resume p r) w2)) !! p = Some [] /\
     is_Some (subscriptions (mgr (exec (Resume p r) w2)) !! c)).
Proof.
  intros Hw w2.
  assert (reachable w2) as Hw2.
  { apply reachable_exec_all. by apply reachable_step. }
  pose proof (reachable_graph_inv _ Hw2) as (Hsym & Hnd & _).
  pose proof (has_entries_exec_all c p os _ (has_entries_subscribe c p w)) as He.
  fold w2 in He. destruct He as [Hc Hp].
  split_and!; try done.
  - pose proof (unsubscribe_Normal c None w2 Hsym Hc) as Hok.
    pose proof (unsubscribe_removes c None w2 Hsym) as (_ & Hs & _).
    pose proof (has_entries_exec c p (Unsubscribe c None) w2 (conj Hc Hp)) as [Hc3 Hp3].
    simpl in Hc3, Hp3.
    destruct (unsubscribe c None w2) as [res w3]. simpl in *.
    exists w3. split_and!; try done.
    + rewrite Hok; [done |]. by intros p' [=].
    + rewrite (lookup_of_view_subscriptions _ _ Hc3), Hs, decide_True by done.
      unfold unsubscribe_targets. simpl. by rewrite filter_not_in_self.
  - intros path. by apply (has_entries_exec c p (Unsubscribe c path) w2).
  - intros r Herr Hst.
    pose proof (has_entries_exec c p (Resume p r) w2 (conj Hc Hp)) as [Hc3 Hp3].
    split; [| done]. rewrite (lookup_of_view_dependents _ _ Hp3). simpl.
    destruct (update_resume_404 p r w2 Hsym (Hnd p) Herr Hst)
      as (w' & Hrun & _ & Hd' & _).
    rewrite Hrun. simpl. by rewrite Hd'.
Qed.

Lemma subscribed_entries_persist_witness :
  let w := exec_all [Subscribe 1 "/users/1"; DoGet "/users/1" Undefined]
             (init sample_backend) in
  let w2 := exec_all [Subscribe 2 "/users/1"; Unsubscribe 2 (Some "/users/1");
                      DoDelete "/users/1"]
              (exec (Subscribe 2 "/users/2") w) in
  reachable w /\
  is_Some (subscriptions (mgr w2) !! 2%nat) /\
  is_Some (dependents (mgr w2) !! "/users/2") /\
  (exists w3, unsubscribe 2 None w2 = (Normal tt, w3) /\
              subscriptions (mgr w3) !! 2%nat = Some [] /\
              is_Some (dependents (mgr w3) !! "/users/2")).
Proof.
  intros w w2. split; [apply reachable_exec_all, reachable_init |].
  destruct (subscribed_entries_persist 2 "/users/2"
              [Subscribe 2 "/users/1"; Unsubscribe 2 (Some "/users/1");
               DoDelete "/users/1"] w)
    as (H1 & H2 & H3 & _).
  - apply reachable_exec_all, reachable_init.
  - split_and!; done.
Defined.

(** ** Where [unsubscribe] throws *)

(** C2 (unsubscribe is not total): on a manager that has never seen the
    client, [unsubscribe] throws a TypeError, with a path and without one. *)
Theorem unsubscribe_unknown_client_throws
    (gen : list event -> verb -> string -> value -> Reply)
    (c : client) (path : option string) :
  unsubscribe c path (init gen) = (Throw TypeError, init gen).
Proof.
  unfold unsubscribe, bind, gets, throw. simpl. rewrite lookup_empty.
  destruct (truthy path) as [p|]; [| done]. simpl.
  unfold bind. by rewrite unsubscribe_target_no_client.
Qed.

(** A client the manager knows, a path it has never seen: TypeError again. *)
Lemma unsubscribe_unknown_path_throws :
  fst (unsubscribe 1 (Some "/b") (exec (Subscribe 1 "/a") (init sample_backend)))
  = Throw TypeError.
Proof. reflexivity. Qed.

(** The empty string is a path like any other for [subscribe], and reads as
    "no path" in [unsubscribe]: the client loses all its subscriptions. *)
Lemma unsubscribe_empty_path_removes_all :
  let w := exec_all [Subscribe 1 "/a"; Subscribe 2 ""] (init sample_backend) in
  subscriptionsOf 1 w = ["/a"] /\
  ("" ∉ subscriptionsOf 1 w) /\
  subscriptionsOf 1 (exec (Unsubscribe 1 (Some "")) w) = [].
Proof.
  split_and!; [reflexivity | | reflexivity].
  intros [Heq | Hin%elem_of_nil]%elem_of_cons; [discriminate | done].
Qed.

(** X3: where both Map entries exist and the path is not the empty string,
    [unsubscribe(c, p)] returns, an absent edge makes it a no-op on both
    views, and a second call changes nothing more. *)
Lemma unsubscribe_known_edge (c : client) (p : string) (w : World) :
  reachable w -> p ≠ "" ->
  is_Some (subscriptions (mgr w) !! c) -> is_Some (dependents (mgr w) !! p) ->
  let w1 := snd (unsubscribe c (Some p) w) in
  fst (unsubscribe c (Some p) w) = Normal tt /\
  fst (unsubscribe c (Some p) w1) = Normal tt /\
  (forall q, dependentsOf q (snd (unsubscribe c (Some p) w1)) = dependentsOf q w1) /\
  (forall d, subscriptionsOf d (snd (unsubscribe c (Some p) w1)) = subscriptionsOf d w1) /\
  (p ∉ subscriptionsOf c w ->
   (forall q, dependentsOf q w1 = dependentsOf q w) /\
   (forall d, subscriptionsOf d w1 = subscriptionsOf d w)).
Proof.
  intros Hw Hp Hc Hd w1.
  pose proof (reachable_graph_inv _ Hw) as (Hsym & _).
  assert (truthy (Some p) = Some p) as Htr.
  { unfold truthy. by rewrite decide_False. }
  assert (forall w0, symmetric w0 ->
            edges_removed c [p] w0 (snd (unsubscribe c (Some p) w0))) as Hrem.
  { intros w0 Hs0. pose proof (unsubscribe_removes c (Some p) w0 Hs0) as H.
    unfold unsubscribe_targets in H. by rewrite Htr in H. }
  pose proof (Hrem w Hsym) as Hr1. fold w1 in Hr1.
  pose proof (edges_removed_symmetric _ _ _ _ Hsym Hr1) as Hsym1.
  pose proof (has_entries_exec c p (Unsubscribe c (Some p)) w (conj Hc Hd)) as [Hc1 Hd1].
  simpl in Hc1, Hd1. fold w1 in Hc1, Hd1.
  pose proof (Hrem w1 Hsym1) as (Hd2 & Hs2 & _).
  destruct Hr1 as (Hd1' & Hs1' & _).
  assert (forall path', truthy (Some p) = Some path' ->
            forall w0, is_Some (dependents (mgr w0) !! p) ->
                       is_Some (dependents (mgr w0) !! path')) as Hpath.
  { intros path'. rewrite Htr. by intros [= <-]. }
  split_and!.
  - apply unsubscribe_Normal; [done | done |]. intros p' Hp'. by eapply Hpath.
  - apply unsubscribe_Normal; [done | done |]. intros p' Hp'. by eapply Hpath.
  - intros q. rewrite Hd2, Hd1'.
    destruct (decide (q ∈ [p])); [apply Set_delete_idemp | done].
  - intros d. rewrite Hs2, Hs1'. destruct (decide (d = c)); [| done].
    apply list_filter_filter_l. tauto.
  - intros Habs. split.
    + intros q. rewrite Hd1'.
      destruct (decide (q ∈ [p])) as [->%list_elem_of_singleton|]; [| done].
      apply Set_delete_absent. by rewrite (Hsym c p).
    + intros d. rewrite Hs1'. destruct (decide (d = c)) as [->|]; [| done].
      rewrite filter_not_in_singleton. by apply Set_delete_absent.
Qed.

(** * Further properties of the manager *)

(** ** [unsubscribe] *)

Lemma unsubscribe_target_no_path_same c t w ss :
  symmetric w ->
  subscriptions (mgr w) !! c = Some ss ->
  dependents (mgr w) !! t = None ->
  unsubscribe_target c t w = (Throw TypeError, w).
Proof.
  intros Hsym Hs Hd. rewrite (unsubscribe_target_no_path _ _ _ _ Hs Hd).
  assert (t ∉ ss) as Ht.
  { rewrite <- (subscriptionsOf_lookup _ _ _ Hs), <- (Hsym c t).
    unfold dependentsOf. rewrite Hd. apply not_elem_of_nil. }
  rewrite (Set_delete_absent _ _ Ht). f_equal.
  unfold with_subscriptions. rewrite (insert_id _ _ _ Hs).
  by destruct w as [[] ? ? ?].
Qed.

Lemma client_entry_unsubscribe c c' path :
  preserves (fun w => is_Some (subscriptions (mgr w) !! c)) (unsubscribe c' path).
Proof.
  apply preserves_unsubscribe_of_inserts.
  - intros d l w Hw. simpl. apply lookup_insert_is_Some'. by right.
  - by intros q l w Hw.
Qed.

Lemma path_entry_unsubscribe p c' path :
  preserves (fun w => is_Some (dependents (mgr w) !! p)) (unsubscribe c' path).
Proof.
  apply preserves_unsubscribe_of_inserts.
  - by intros d l w Hw.
  - intros q l w Hw. simpl. apply lookup_insert_is_Some'. by right.
Qed.

(** X1: in a reachable world, [unsubscribe(c)] without a path (or with the
    empty string as path) for a client that has a Map entry returns, takes
    [c] out of the dependents of every path, leaves [c] with the empty Set,
    and leaves the other clients, the cache and the trace alone. *)
Theorem unsubscribe_all_clears_client (c : client) (path : option string)
    (w : World) :
  reachable w -> truthy path = None ->
  is_Some (subscriptions (mgr w) !! c) ->
  exists w', unsubscribe c path w = (Normal tt, w') /\
             subscriptions (mgr w') !! c = Some [] /\
             (forall q, dependentsOf q w' = Set_delete c (dependentsOf q w)) /\
             (forall q, c ∉ dependentsOf q w') /\
             (forall d, d ≠ c -> subscriptionsOf d w' = subscriptionsOf d w) /\
             cache (mgr w') = cache (mgr w) /\
             trace w' = trace w.
Proof.
  intros Hw Htr Hc.
  pose proof (reachable_graph_inv _ Hw) as (Hsym & _).
  assert (fst (unsubscribe c path w) = Normal tt) as Hok.
  { apply unsubscribe_Normal; [done | done |]. intros p. by rewrite Htr. }
  pose proof (unsubscribe_removes c path w Hsym) as Hrem.
  pose proof (client_entry_unsubscribe c c path w Hc) as Hc'.
  unfold unsubscribe_targets in Hrem. rewrite Htr in Hrem.
  destruct (unsubscribe c path w) as [res w']. simpl in *. subst res.
  destruct Hrem as (Hd & Hs & Hca & Htc & _).
  assert (forall q, dependentsOf q w' = Set_delete c (dependentsOf q w)) as Hd'.
  { intros q. rewrite Hd. destruct (decide (q ∈ subscriptionsOf c w)); [done |].
    symmetry. apply Set_delete_absent. by rewrite (Hsym c q). }
  assert (subscriptionsOf c w' = []) as Hs'.
  { by rewrite Hs, decide_True, filter_not_in_self. }
  exists w'. split_and!; try done.
  - by rewrite (lookup_of_view_subscriptions _ _ Hc'), Hs'.
  - intros q. rewrite Hd', elem_of_Set_delete. tauto.
  - intros d Hne. by rewrite Hs, decide_False.
Qed.

Lemma unsubscribe_all_clears_client_witness :
  let w := exec_all [Subscribe 1 "/users/1"; Subscribe 1 "/users/2";
                     Subscribe 2 "/users/1"]
             (init sample_backend) in
  (reachable w /\ truthy None = None /\ is_Some (subscriptions (mgr w) !! 1%nat)) /\
  exists w', unsubscribe 1 None w = (Normal tt, w') /\
             subscriptions (mgr w') !! 1%nat = Some [] /\
             dependentsOf "/users/1" w' = [2%nat] /\
             dependentsOf "/users/2" w' = [].
Proof.
  intros w. split.
  - split_and!; [apply reachable_exec_all, reachable_init | done | by eexists].
  - destruct (unsubscribe_all_clears_client 1 None w)
      as (w' & Hrun & Hs & Hd & _);
      [apply reachable_exec_all, reachable_init | done | by eexists |].
    exists w'. split_and!; [done | done | by rewrite Hd | by rewrite Hd].
Defined.

(** The effect of [unsubscribe(c, p)] on both views, for a non-empty [p]. *)
Lemma unsubscribe_one_edge_views (c : client) (p : string) (w : World) :
  reachable w -> p ≠ "" ->
  is_Some (subscriptions (mgr w) !! c) -> is_Some (dependents (mgr w) !! p) ->
  exists w', unsubscribe c (Some p) w = (Normal tt, w') /\
             dependentsOf p w' = Set_delete c (dependentsOf p w) /\
             subscriptionsOf c w' = Set_delete p (subscriptionsOf c w) /\
             (forall q, q ≠ p -> dependentsOf q w' = dependentsOf q w) /\
             (forall d, d ≠ c -> subscriptionsOf d w' = subscriptionsOf d w) /\
             cache (mgr w') = cache (mgr w) /\
             trace w' = trace w.
Proof.
  intros Hw Hp Hc Hd.
  pose proof (reachable_graph_inv _ Hw) as (Hsym & _).
  assert (truthy (Some p) = Some p) as Htr.
  { unfold truthy. by rewrite decide_False. }
  assert (fst (unsubscribe c (Some p) w) = Normal tt) as Hok.
  { apply unsubscribe_Normal; [done | done |]. intros p'. rewrite Htr.
    by intros [= <-]. }
  pose proof (unsubscribe_removes c (Some p) w Hsym) as Hrem.
  unfold unsubscribe_targets in Hrem. rewrite Htr in Hrem.
  destruct (unsubscribe c (Some p) w) as [res w']. simpl in *. subst res.
  destruct Hrem as (Hd' & Hs' & Hca & Htc & _).
  exists w'. split_and!; try done.
  - rewrite Hd', decide_True; [done | by apply list_elem_of_singleton].
  - by rewrite Hs', decide_True, filter_not_in_singleton.
  - intros q Hq. rewrite Hd', decide_False; [done |].
    by rewrite list_elem_of_singleton.
  - intros d Hne. by rewrite Hs', decide_False.
Qed.

(** X2: in a reachable world, [unsubscribe(c, p)] with a non-empty [p], where
    [c] and [p] have Map entries, returns and removes exactly the edge between
    [c] and [p]: the other subscriptions of [c], the other dependents of [p],
    every other Set, the cache and the trace are as before. *)
Theorem unsubscribe_removes_one_edge (c : client) (p : string) (w : World) :
  reachable w -> p ≠ "" ->
  is_Some (subscriptions (mgr w) !! c) -> is_Some (dependents (mgr w) !! p) ->
  exists w', unsubscribe c (Some p) w = (Normal tt, w') /\
             dependentsOf p w' = Set_delete c (dependentsOf p w) /\
             subscriptionsOf c w' = Set_delete p (subscriptionsOf c w) /\
             (forall q, q ≠ p -> dependentsOf q w' = dependentsOf q w) /\
             (forall d, d ≠ c -> subscriptionsOf d w' = subscriptionsOf d w) /\
             cache (mgr w') = cache (mgr w) /\
             trace w' = trace w.
Proof. apply unsubscribe_one_edge_views. Qed.

Lemma unsubscribe_removes_one_edge_witness :
  let w := exec_all [Subscribe 1 "/users/1"; Subscribe 1 "/users/2";
                     Subscribe 2 "/users/1"]
             (init sample_backend) in
  reachable w /\
  exists w', unsubscribe 1 (Some "/users/1") w = (Normal tt, w') /\
             dependentsOf "/users/1" w' = [2%nat] /\
             subscriptionsOf 1 w' = ["/users/2"].
Proof.
  intros w. split; [apply reachable_exec_all, reachable_init |].
  destruct (unsubscribe_removes_one_edge 1 "/users/1" w)
    as (w' & Hrun & Hd & Hs & _);
    [apply reachable_exec_all, reachable_init | done | by eexists | by eexists |].
  exists w'. split_and!; [done | by rewrite Hd | by rewrite Hs].
Defined.

Lemma unsubscribe_known_edge_witness :
  let w := exec_all [Subscribe 1 "/users/1"; Subscribe 2 "/users/2"]
             (init sample_backend) in
  let w1 := snd (unsubscribe 1 (Some "/users/2") w) in
  (reachable w /\ "/users/2" ∉ subscriptionsOf 1 w) /\
  fst (unsubscribe 1 (Some "/users/2") w) = Normal tt /\
  (forall q, dependentsOf q w1 = dependentsOf q w) /\
  (forall d, subscriptionsOf d w1 = subscriptionsOf d w).
Proof.
  intros w w1.
  assert ("/users/2" ∉ subscriptionsOf 1 w) as Habs.
  { intros [Heq | Hin%elem_of_nil]%elem_of_cons; [discriminate | done]. }
  split; [split; [apply reachable_exec_all, reachable_init | done] |].
  destruct (unsubscribe_known_edge 1 "/users/2" w)
    as (Hok & _ & _ & _ & Hnoop);
    [apply reachable_exec_all, reachable_init | done | by eexists | by eexists |].
  destruct (Hnoop Habs) as [Hd Hs]. split_and!; done.
Defined.

(** X4: in a reachable world, [unsubscribe] returns exactly when the client
    has a Map entry and the path, if one is given and not empty, has one too;
    when it throws instead, the world is the one from before the call. *)
Theorem unsubscribe_throws_iff (c : client) (path : option string) (w : World) :
  reachable w ->
  (fst (unsubscribe c path w) = Normal tt <->
   is_Some (subscriptions (mgr w) !! c) /\
   forall p, truthy path = Some p -> is_Some (dependents (mgr w) !! p)) /\
  (fst (unsubscribe c path w) ≠ Normal tt ->
   unsubscribe c path w = (Throw TypeError, w)).
Proof.
  intros Hw. pose proof (reachable_graph_inv _ Hw) as (Hsym & _).
  assert ((is_Some (subscriptions (mgr w) !! c) /\
           forall p, truthy path = Some p -> is_Some (dependents (mgr w) !! p)) \/
          unsubscribe c path w = (Throw TypeError, w)) as [[Hc Hp]|Hthrow].
  { destruct (subscriptions (mgr w) !! c) as [ss|] eqn:Hs.
    - destruct (truthy path) as [p|] eqn:Htr.
      + destruct (dependents (mgr w) !! p) as [ds|] eqn:Hd.
        * left. split; [by eexists |]. intros p' [= <-]. by eexists.
        * right. rewrite (unsubscribe_truthy _ _ _ _ Htr). unfold bind.
          by rewrite (unsubscribe_target_no_path_same _ _ _ _ Hsym Hs Hd).
      + left. split; [by eexists | done].
    - right. destruct (truthy path) as [p|] eqn:Htr.
      + rewrite (unsubscribe_truthy _ _ _ _ Htr). unfold bind.
        by rewrite (unsubscribe_target_no_client _ _ _ Hs).
      + unfold unsubscribe, bind, gets, throw. simpl. by rewrite Htr, Hs. }
  - pose proof (unsubscribe_Normal c path w Hsym Hc Hp) as Hok.
    split; [by split | by intros Hne].
  - rewrite Hthrow. simpl. split; [| done]. split; [done |].
    intros [[ss Hs] Hp]. pose proof (unsubscribe_Normal c path w Hsym) as Hok.
    rewrite Hthrow in Hok. simpl in Hok.
    assert (Throw TypeError = Normal ()) as Habs by (apply Hok; [by eexists | done]).
    discriminate.
Qed.

Lemma unsubscribe_throws_iff_witness :
  let w := exec_all [Subscribe 1 "/users/1"; DoGet "/users/1" Undefined]
             (init sample_backend) in
  reachable w /\
  fst (unsubscribe 1 (Some "/users/9") w) ≠ Normal tt /\
  unsubscribe 1 (Some "/users/9") w = (Throw TypeError, w).
Proof.
  intros w. split; [apply reachable_exec_all, reachable_init |].
  assert (fst (unsubscribe 1 (Some "/users/9") w) ≠ Normal tt) as Hne by done.
  split; [done |].
  apply (proj2 (unsubscribe_throws_iff 1 (Some "/users/9") w
                  (reachable_exec_all _ _ (reachable_init sample_backend)))).
  exact Hne.
Defined.

(** ** [subscribe] *)

Lemma Set_delete_add {A} `{EqDecision A} (x : A) (s : list A) :
  x ∉ s -> Set_delete x (Set_add x s) = s.
Proof.
  intros Hx. unfold Set_add. rewrite decide_False by done.
  unfold Set_delete. rewrite filter_app, filter_cons_False, filter_nil, app_nil_r.
  - by apply Set_delete_absent.
  - intros Hne. by apply Hne.
Qed.

Lemma subscribe_views c p w :
  let w' := snd (subscribe c p w) in
  (forall q, dependentsOf q w' =
             if decide (q = p) then Set_add c (dependentsOf p w) else dependentsOf q w) /\
  (forall d, subscriptionsOf d w' =
             if decide (d = c) then Set_add p (subscriptionsOf c w)
             else subscriptionsOf d w).
Proof.
  rewrite subscribe_eq. simpl. split.
  - intros q. apply (dependentsOf_with_dependents_insert q p _ w).
  - intros d. rewrite subscriptionsOf_with_subscriptions_insert.
    by destruct (decide (d = c)).
Qed.

(** X5: [subscribe(c, p)] adds the edge between [c] and [p] to both indexes
    and changes nothing else: every other membership, the cache and the trace
    are as before, in every world. *)
Theorem subscribe_adds_one_edge (c : client) (p : string) (w : World) :
  let w' := snd (subscribe c p w) in
  (forall d q, d ∈ dependentsOf q w' <-> (d = c /\ q = p) \/ d ∈ dependentsOf q w) /\
  (forall d q, q ∈ subscriptionsOf d w' <-> (d = c /\ q = p) \/ q ∈ subscriptionsOf d w) /\
  cache (mgr w') = cache (mgr w) /\
  trace w' = trace w.
Proof.
  intros w'. destruct (subscribe_views c p w) as [Hd Hs]. fold w' in Hd, Hs.
  split_and!.
  - intros d q. rewrite Hd. destruct (decide (q = p)) as [->|Hq].
    + rewrite elem_of_Set_add. tauto.
    + tauto.
  - intros d q. rewrite Hs. destruct (decide (d = c)) as [->|Hdc].
    + rewrite elem_of_Set_add. tauto.
    + tauto.
  - unfold w'. by rewrite subscribe_eq.
  - unfold w'. by rewrite subscribe_eq.
Qed.

(** X6: a client that subscribes to a path it was not a dependent of joins
    the end of the Set, so a successful [update] of that path invokes the
    earlier dependents in their order and the new client last. *)
Theorem new_subscriber_notified_last (c : client) (p : string) (w : World) :
  c ∉ dependentsOf p w ->
  let w1 := snd (subscribe c p w) in
  let r := generator (mgr w1) (trace w1) Get p Undefined in
  isError r = false ->
  new_events w1 (snd (update p w1)) =
  Call Get p Undefined ::
    map (fun d => Notify d p (payload r)) (dependentsOf p w) ++
    [Notify c p (payload r)].
Proof.
  intros Hc w1 r Hok. apply new_events_app.
  unfold update, bind, call_generator. fold r.
  rewrite (update_resume_success _ _ _ Hok). simpl.
  change (dependentsOf p (emit (Call Get p Undefined) w1)) with (dependentsOf p w1).
  destruct (subscribe_views c p w) as [Hd _]. fold w1 in Hd.
  rewrite Hd, decide_True by done. unfold Set_add.
  rewrite decide_False by done. rewrite map_app. simpl.
  by rewrite <- app_assoc.
Qed.

Lemma new_subscriber_notified_last_witness :
  let w := exec_all [Subscribe 1 "/a"; Subscribe 2 "/a"] (init sample_backend) in
  let w1 := snd (subscribe 7 "/a" w) in
  ((7%nat ∉ dependentsOf "/a" w) /\
   isError (generator (mgr w1) (trace w1) Get "/a" Undefined) = false) /\
  new_events w1 (snd (update "/a" w1)) =
  [Call Get "/a" Undefined; Notify 1 "/a" (Str "/a"); Notify 2 "/a" (Str "/a");
   Notify 7 "/a" (Str "/a")].
Proof.
  intros w w1.
  assert (7%nat ∉ dependentsOf "/a" w) as Hc.
  { intros [Heq | [Heq | Hin%elem_of_nil]%elem_of_cons]%elem_of_cons;
      [discriminate | discriminate | done]. }
  split; [by split |].
  apply (new_subscriber_notified_last 7 "/a" w Hc). reflexivity.
Defined.

(** X7: in a reachable world, subscribing a client to a non-empty path it was
    not subscribed to and unsubscribing it again gives back both views of the
    graph, the cache and the trace. *)
Theorem subscribe_unsubscribe_round_trip (c : client) (p : string) (w : World) :
  reachable w -> p ≠ "" -> c ∉ dependentsOf p w ->
  exists w2, unsubscribe c (Some p) (snd (subscribe c p w)) = (Normal tt, w2) /\
             (forall q, dependentsOf q w2 = dependentsOf q w) /\
             (forall d, subscriptionsOf d w2 = subscriptionsOf d w) /\
             cache (mgr w2) = cache (mgr w) /\
             trace w2 = trace w.
Proof.
  intros Hw Hp Hc.
  pose proof (reachable_graph_inv _ Hw) as (Hsym & _).
  pose proof (reachable_step (Subscribe c p) w Hw) as Hw1.
  destruct (has_entries_subscribe c p w) as [Hec Hep].
  destruct (subscribe_views c p w) as [Hd1 Hs1].
  assert (cache (mgr (snd (subscribe c p w))) = cache (mgr w) /\
          trace (snd (subscribe c p w)) = trace w) as [Hca1 Ht1].
  { by rewrite subscribe_eq. }
  simpl in Hw1, Hec, Hep.
  destruct (unsubscribe_one_edge_views c p _ Hw1 Hp Hec Hep)
    as (w2 & Hrun & Hd2 & Hs2 & Hd2' & Hs2' & Hca2 & Ht2).
  exists w2. split_and!; try congruence.
  - intros q. destruct (decide (q = p)) as [->|Hq].
    + rewrite Hd2, Hd1, decide_True by done. by apply Set_delete_add.
    + rewrite Hd2', Hd1, decide_False by done. done.
  - intros d. destruct (decide (d = c)) as [->|Hdc].
    + rewrite Hs2, Hs1, decide_True by done. apply Set_delete_add.
      by rewrite <- (Hsym c p).
    + rewrite Hs2', Hs1, decide_False by done. done.
Qed.

Lemma subscribe_unsubscribe_round_trip_witness :
  let w := exec_all [Subscribe 1 "/a"; Subscribe 2 "/b"] (init sample_backend) in
  (reachable w /\ "/b" ≠ "" /\ 1%nat ∉ dependentsOf "/b" w) /\
  exists w2, unsubscribe 1 (Some "/b") (snd (subscribe 1 "/b" w)) = (Normal tt, w2) /\
             (forall q, dependentsOf q w2 = dependentsOf q w) /\
             (forall d, subscriptionsOf d w2 = subscriptionsOf d w).
Proof.
  intros w.
  assert (1%nat ∉ dependentsOf "/b" w) as Hc.
  { intros [Heq | Hin%elem_of_nil]%elem_of_cons; [discriminate | done]. }
  split; [split_and!; [apply reachable_exec_all, reachable_init | done | done] |].
  destruct (subscribe_unsubscribe_round_trip 1 "/b" w)
    as (w2 & Hrun & Hd & Hs & _);
    [apply reachable_exec_all, reachable_init | done | done |].
  exists w2. split_and!; done.
Defined.

(** ** [update] in general *)

Lemma graph_inv_emit e w : graph_inv w -> graph_inv (emit e w).
Proof. by apply graph_inv_same_graph. Qed.

(** The clients [update] invokes and the value it hands them, by answer. *)
Lemma update_resume_shape p r w :
  graph_inv w ->
  exists w',
    update_resume p r w = (Normal r, w') /\
    trace w' = trace w ++
      map (fun c => Notify c p (if isError r then Undefined else payload r))
          (if isError r && negb (status r =? 404)%Z then [] else dependentsOf p w).
Proof.
  intros (Hsym & Hnd & _).
  destruct (isError r) eqn:Herr; simpl.
  - destruct (Z.eqb_spec (status r) 404) as [Hst|Hst]; simpl.
    + destruct (update_resume_404 p r w Hsym (Hnd p) Herr Hst)
        as (w' & Hrun & _ & _ & _ & _ & Ht & _).
      by exists w'.
    + exists w. rewrite update_resume_other_error by done.
      by rewrite app_nil_r.
  - rewrite (update_resume_success _ _ _ Herr). eexists. split; [reflexivity | done].
Qed.

Lemma notifications_to_fanout_le c p v s :
  NoDup s ->
  (length (notifications_to c (map (fun c' => Notify c' p v) s)) <= 1)%nat.
Proof.
  intros Hnd. destruct (decide (c ∈ s)) as [Hc|Hc].
  - by rewrite notifications_to_fanout.
  - rewrite notifications_to_skip by done. simpl. lia.
Qed.

(** X8: in every reachable world [update(p)] returns the answer of the
    generator, whatever it is; its events are the "get" call and then one
    callback per client it invokes; a client that is not a dependent of [p]
    is not invoked, and no client is invoked twice. *)
Theorem update_fanout_shape (p : string) (w : World) :
  reachable w ->
  let r := generator (mgr w) (trace w) Get p Undefined in
  let w' := snd (update p w) in
  fst (update p w) = Normal r /\
  new_events w w' =
    Call Get p Undefined ::
      map (fun c => Notify c p (if isError r then Undefined else payload r))
          (if isError r && negb (status r =? 404)%Z then [] else dependentsOf p w) /\
  (forall c, c ∉ dependentsOf p w -> notifications_to c (new_events w w') = []) /\
  (forall c, (length (notifications_to c (new_events w w')) <= 1)%nat).
Proof.
  intros Hw r w'. pose proof (reachable_graph_inv _ Hw) as Hinv.
  destruct (update_resume_shape p r (emit (Call Get p Undefined) w)
              (graph_inv_emit _ _ Hinv)) as (w1 & Hrun & Ht).
  assert (update p w = (Normal r, w1)) as Hup.
  { unfold update, bind, call_generator. fold r. by rewrite Hrun. }
  unfold w'. rewrite Hup. cbn [fst snd].
  change (dependentsOf p (emit (Call Get p Undefined) w)) with (dependentsOf p w) in Ht.
  simpl in Ht. rewrite <- app_assoc in Ht. simpl in Ht.
  rewrite (new_events_app _ _ _ Ht).
  destruct Hinv as (_ & Hnd & _).
  split_and!; try done.
  - intros c Hc. unfold notifications_to. simpl. fold (notifications_to c).
    destruct (isError r && negb (status r =? 404)%Z); [done |].
    by apply notifications_to_skip.
  - intros c. unfold notifications_to. simpl. fold (notifications_to c).
    destruct (isError r && negb (status r =? 404)%Z); [simpl; lia |].
    by apply notifications_to_fanout_le.
Qed.

Lemma update_fanout_shape_witness :
  let w := exec_all [Subscribe 1 "/a"; Subscribe 2 "/a"; Subscribe 3 "/broken"]
             (init sample_backend) in
  reachable w /\
  new_events w (snd (update "/a" w)) =
    [Call Get "/a" Undefined; Notify 1 "/a" (Str "/a"); Notify 2 "/a" (Str "/a")] /\
  new_events w (snd (update "/broken" w)) = [Call Get "/broken" Undefined].
Proof.
  intros w.
  pose proof (reachable_exec_all
                [Subscribe 1 "/a"; Subscribe 2 "/a"; Subscribe 3 "/broken"]
                _ (reachable_init sample_backend)) as Hw.
  split; [exact Hw |]. split.
  - exact (proj1 (proj2 (update_fanout_shape "/a" w Hw))).
  - exact (proj1 (proj2 (update_fanout_shape "/broken" w Hw))).
Defined.

(** ** The cache *)

Lemma snd_bind_ret {A B} (m : M A) (b : B) w :
  snd (bind m (fun _ => ret b) w) = snd (m w).
Proof. unfold bind, ret. by destruct (m w) as [[a|e] w']. Qed.

Lemma cache_kept_by_unsubscribe (K : gmap string value) c path :
  preserves (fun w => cache (mgr w) = K) (unsubscribe c path).
Proof. apply preserves_unsubscribe_of_inserts; by intros. Qed.

Lemma cache_kept_by_fanout (K : gmap string value) p body :
  (forall c, preserves (fun w => cache (mgr w) = K) (body c)) ->
  preserves (fun w => cache (mgr w) = K)
    (let! ds := gets (fun w => dependents (mgr w) !! p) in
     match ds with
     | Some s => Set_forEach (dependentsOf p) body s
     | None => ret tt
     end).
Proof.
  intros Hb. apply preserves_bind; [apply preserves_gets |].
  intros [s'|]; [by apply preserves_Set_forEach | apply preserves_ret].
Qed.

(** What [update] does to the cache, in every world and however the fan-out
    ends: a non-error answer writes the payload at [p], a 404 deletes the
    entry of [p], any other error leaves the cache as it is. *)
Lemma update_resume_cache p r w :
  cache (mgr (snd (update_resume p r w))) =
  if negb (isError r) then <[p := payload r]> (cache (mgr w))
  else if (status r =? 404)%Z then delete p (cache (mgr w))
  else cache (mgr w).
Proof.
  unfold update_resume. rewrite snd_bind_ret.
  destruct (negb (isError r)); [| destruct (status r =? 404)%Z]; [| | done].
  - unfold bind at 1, modify.
    apply (cache_kept_by_fanout (<[p := payload r]> (cache (mgr w))) p);
      [| done].
    intros c. unfold notify_dependent.
    apply preserves_bind; [apply preserves_gets |].
    intros v. by apply preserves_modify.
  - unfold bind at 1, modify.
    apply (cache_kept_by_fanout (delete p (cache (mgr w))) p); [| done].
    intros c. unfold evict_dependent.
    apply preserves_bind; [apply cache_kept_by_unsubscribe |].
    intros _. by apply preserves_modify.
Qed.

Lemma update_cache p w :
  cache (mgr (snd (update p w))) =
  let r := generator (mgr w) (trace w) Get p Undefined in
  if negb (isError r) then <[p := payload r]> (cache (mgr w))
  else if (status r =? 404)%Z then delete p (cache (mgr w))
  else cache (mgr w).
Proof. unfold update, bind at 1, call_generator. by rewrite update_resume_cache. Qed.

Lemma update_cache_other p q w :
  p ≠ q -> cache (mgr (snd (update p w))) !! q = cache (mgr w) !! q.
Proof.
  intros Hne. rewrite update_cache. cbv zeta.
  destruct (negb _); [by rewrite lookup_insert_ne |].
  destruct (_ =? _)%Z; [by rewrite lookup_delete_ne | done].
Qed.

(** X9: an operation changes the cache at most at its own path; [subscribe]
    and [unsubscribe] do not change it at all.  This holds in every world,
    also when the operation throws. *)
Theorem cache_changes_only_at_path (o : op) (q : string) (w : World) :
  cache_path o ≠ Some q ->
  cache (mgr (exec o w)) !! q = cache (mgr w) !! q.
Proof.
  intros Hq.
  assert (forall v p d, p ≠ q ->
            cache (mgr (snd (mutate v p d w))) !! q = cache (mgr w) !! q) as Hmut.
  { intros v p d Hne.
    destruct (isError (generator (mgr w) (trace w) v p d)) eqn:Hr.
    - by rewrite mutate_failure.
    - by rewrite mutate_success. }
  destruct o as [c p|c path|p d|p|p d|p d|p d|p|p r|p i]; simpl in *.
  - by rewrite subscribe_eq.
  - by rewrite (cache_kept_by_unsubscribe (cache (mgr w)) c path w).
  - unfold get, bind, gets. destruct (cache (mgr w) !! p); [done |].
    apply update_cache_other. congruence.
  - apply update_cache_other. congruence.
  - apply Hmut. congruence.
  - apply Hmut. congruence.
  - apply Hmut. congruence.
  - apply Hmut. congruence.
  - rewrite update_resume_cache.
    destruct (negb _); [rewrite lookup_insert_ne; [done | congruence] |].
    destruct (_ =? _)%Z; [rewrite lookup_delete_ne; [done | congruence] | done].
  - unfold settle. destruct (pending w !! i) as [[p' r]|]; [| done].
    destruct (decide (p' = p)); [| done]. cbn [snd].
    rewrite update_resume_cache. cbn [mgr with_pending].
    destruct (negb _); [rewrite lookup_insert_ne; [done | congruence] |].
    destruct (_ =? _)%Z; [rewrite lookup_delete_ne; [done | congruence] | done].
Qed.

Lemma cache_changes_only_at_path_witness :
  let w := exec_all [DoGet "/a" Undefined; DoGet "/b" Undefined] (init sample_backend) in
  cache_path (DoDelete "/a") ≠ Some "/b" /\
  cache (mgr (exec (DoDelete "/a") w)) !! "/b" = cache (mgr w) !! "/b".
Proof.
  intros w. split; [discriminate |].
  apply cache_changes_only_at_path. discriminate.
Defined.

(** ** What the eviction cascade removes *)

Lemma evict_loop_subscriptions p s w :
  symmetric w -> NoDup s -> dependentsOf p w = s ->
  exists w',
    Set_forEach (dependentsOf p) (evict_dependent p) s w = (Normal tt, w') /\
    forall d, subscriptionsOf d w' =
              if decide (d ∈ s)
              then filter (fun t => t ∉ unsubscribe_targets d (Some p) w)
                          (subscriptionsOf d w)
              else subscriptionsOf d w.
Proof.
  revert w. induction s as [|c s IH]; intros w Hsym Hnd Hdeps; cbn [Set_forEach].
  - exists w. split; [done |]. intros d. rewrite decide_False; [done |].
    apply not_elem_of_nil.
  - rewrite decide_True by (rewrite Hdeps; by left).
    destruct (unsubscribe_dependent c p w Hsym) as
      (w1 & Hun & Hsym1 & Hd1 & _).
    { rewrite Hdeps. by left. }
    pose proof (unsubscribe_removes c (Some p) w Hsym) as (_ & Hs1 & _).
    rewrite Hun in Hs1. cbn [snd] in Hs1.
    rewrite Hdeps, (Set_delete_head _ _ Hnd) in Hd1.
    apply NoDup_cons in Hnd as [Hc Hnd].
    unfold bind at 1, evict_dependent, bind at 1. rewrite Hun.
    unfold invoke at 1, modify.
    destruct (IH (emit (Notify c p Undefined) (observe w1))) as (w2 & Hrun & Hs2);
      [by apply (symmetric_same_graph w1) | done | done |].
    exists w2. split; [done |]. intros d. rewrite Hs2.
    change (subscriptionsOf d (emit (Notify c p Undefined) (observe w1)))
      with (subscriptionsOf d w1).
    assert (d ≠ c -> unsubscribe_targets d (Some p) (emit (Notify c p Undefined) (observe w1))
                     = unsubscribe_targets d (Some p) w) as Htargets.
    { intros Hne. unfold unsubscribe_targets. destruct (truthy (Some p)); [done |].
      change (subscriptionsOf d (emit (Notify c p Undefined) (observe w1)))
        with (subscriptionsOf d w1).
      by rewrite Hs1, decide_False. }
    rewrite Hs1.
    destruct (decide (d = c)) as [->|Hne].
    + rewrite decide_False by done. by rewrite decide_True by (by left).
    + rewrite (Htargets Hne).
      destruct (decide (d ∈ s)) as [Hd|Hd].
      * by rewrite decide_True by (by right).
      * rewrite decide_False; [done |].
        intros [?|?]%elem_of_cons; done.
Qed.

Lemma update_resume_404_subscriptions p r w :
  symmetric w -> NoDup (dependentsOf p w) ->
  isError r = true -> status r = 404%Z ->
  forall d, subscriptionsOf d (snd (update_resume p r w)) =
            if decide (d ∈ dependentsOf p w)
            then filter (fun t => t ∉ unsubscribe_targets d (Some p) w)
                        (subscriptionsOf d w)
            else subscriptionsOf d w.
Proof.
  intros Hsym Hnd Herr Hst d. unfold update_resume.
  rewrite snd_bind_ret, Herr, Hst.
  change (negb true) with false. change (404 =? 404)%Z with true. cbv iota.
  unfold bind at 1 2, modify, gets.
  set (w0 := with_cache (delete p) w).
  change (dependents (mgr w0)) with (dependents (mgr w)).
  destruct (dependents (mgr w) !! p) as [s|] eqn:Hd.
  - pose proof (dependentsOf_lookup _ _ _ Hd) as Hs. rewrite Hs in *.
    destruct (evict_loop_subscriptions p s w0) as (w' & Hrun & Hsubs);
      [by apply (symmetric_same_graph w) | done | done |].
    rewrite Hrun. cbn [snd]. by rewrite Hsubs.
  - assert (dependentsOf p w = []) as ->.
    { unfold dependentsOf. by rewrite Hd. }
    rewrite decide_False; [done | apply not_elem_of_nil].
Qed.

(** X10: in a reachable world, a 404 answer to [update(p)] for a non-empty
    [p] removes the edges to [p] and no other edge: every client keeps its
    subscriptions to the other paths, in their order, and every other path
    keeps its dependents. *)
Theorem eviction_removes_only_edges_to_path (p : string) (w : World) :
  reachable w -> p ≠ "" ->
  let r := generator (mgr w) (trace w) Get p Undefined in
  isError r = true -> status r = 404%Z ->
  let w' := snd (update p w) in
  (forall c, subscriptionsOf c w' = Set_delete p (subscriptionsOf c w)) /\
  (forall c q, c ∈ dependentsOf q w' <-> c ∈ dependentsOf q w /\ q ≠ p).
Proof.
  intros Hw Hp r Herr Hst w'.
  pose proof (reachable_graph_inv _ Hw) as (Hsym & Hnd & _).
  pose proof (reachable_graph_inv _ (reachable_step (DoUpdate p) w Hw)) as (Hsym' & _).
  simpl in Hsym'. fold w' in Hsym'.
  assert (forall c, subscriptionsOf c w' = Set_delete p (subscriptionsOf c w)) as Hs.
  { intros c. unfold w', update, bind at 1, call_generator. fold r.
    assert (symmetric (emit (Call Get p Undefined) w)) as Hsym0
      by (by apply (symmetric_same_graph w)).
    rewrite (update_resume_404_subscriptions p r (emit (Call Get p Undefined) w)
               Hsym0 (Hnd p) Herr Hst).
    change (dependentsOf p (emit (Call Get p Undefined) w)) with (dependentsOf p w).
    change (subscriptionsOf c (emit (Call Get p Undefined) w))
      with (subscriptionsOf c w).
    unfold unsubscribe_targets, truthy.
    rewrite (decide_False (P := p = "")) by done.
    rewrite filter_not_in_singleton.
    destruct (decide (c ∈ dependentsOf p w)) as [Hc|Hc]; [done |].
    symmetry. apply Set_delete_absent. by rewrite <- (Hsym c p). }
  split; [done |].
  intros c q. rewrite (Hsym' c q), Hs, elem_of_Set_delete, (Hsym c q). tauto.
Qed.

Lemma eviction_removes_only_edges_to_path_witness :
  let w := exec_all [DoDelete "/users/1"; Subscribe 1 "/users/1";
                     Subscribe 1 "/users/2"; Subscribe 2 "/users/1"]
             (init sample_backend) in
  let r := generator (mgr w) (trace w) Get "/users/1" Undefined in
  (reachable w /\ "/users/1" ≠ "" /\ isError r = true /\ status r = 404%Z) /\
  subscriptionsOf 1 (snd (update "/users/1" w)) = ["/users/2"].
Proof.
  intros w r.
  pose proof (reachable_exec_all
                [DoDelete "/users/1"; Subscribe 1 "/users/1";
                 Subscribe 1 "/users/2"; Subscribe 2 "/users/1"]
                _ (reachable_init sample_backend)) as Hw.
  split; [split_and!; done |].
  rewrite (proj1 (eviction_removes_only_edges_to_path "/users/1" w Hw
                    ltac:(done) eq_refl eq_refl)).
  reflexivity.
Defined.

(** X11: the empty string is a path one can subscribe to, and [unsubscribe]
    reads it as "no path".  So, in a reachable world, a 404 answer to
    [update("")] leaves every client that was a dependent of the empty path
    without any subscription at all, and the other clients as they were. *)
Theorem eviction_of_empty_path_clears_clients (w : World) :
  reachable w ->
  let r := generator (mgr w) (trace w) Get "" Undefined in
  isError r = true -> status r = 404%Z ->
  forall c, subscriptionsOf c (snd (update "" w)) =
            if decide (c ∈ dependentsOf "" w) then [] else subscriptionsOf c w.
Proof.
  intros Hw r Herr Hst c.
  pose proof (reachable_graph_inv _ Hw) as (Hsym & Hnd & _).
  unfold update, bind at 1, call_generator. fold r.
  assert (symmetric (emit (Call Get "" Undefined) w)) as Hsym0
    by (by apply (symmetric_same_graph w)).
  rewrite (update_resume_404_subscriptions "" r (emit (Call Get "" Undefined) w)
             Hsym0 (Hnd "") Herr Hst).
  change (dependentsOf "" (emit (Call Get "" Undefined) w)) with (dependentsOf "" w).
  destruct (decide (c ∈ dependentsOf "" w)); [| done].
  apply filter_not_in_self.
Qed.

Lemma eviction_of_empty_path_clears_clients_witness :
  let w := exec_all [DoDelete ""; Subscribe 1 ""; Subscribe 1 "/users/2";
                     Subscribe 2 "/users/2"]
             (init sample_backend) in
  let r := generator (mgr w) (trace w) Get "" Undefined in
  (reachable w /\ isError r = true /\ status r = 404%Z) /\
  subscriptionsOf 1 w = [""; "/users/2"] /\
  subscriptionsOf 1 (snd (update "" w)) = [] /\
  new_events w (snd (update "" w)) = [Call Get "" Undefined; Notify 1 "" Undefined].
Proof.
  intros w r.
  pose proof (reachable_exec_all
                [DoDelete ""; Subscribe 1 ""; Subscribe 1 "/users/2";
                 Subscribe 2 "/users/2"]
                _ (reachable_init sample_backend)) as Hw.
  split; [split_and!; done |]. split; [reflexivity |]. split; [| reflexivity].
  by rewrite (eviction_of_empty_path_clears_clients w Hw eq_refl eq_refl 1%nat).
Defined.

(** ** A mutation and the refresh it triggers *)

(** The refresh a mutation has just left pending receives its answer. *)
Lemma settle_latest p r w0 :
  settle p (length (pending w0)) (with_pending (fun q => q ++ [(p, r)]) w0) =
  (Normal tt, snd (update_resume p r w0)).
Proof.
  unfold settle. cbn [pending with_pending].
  rewrite list_lookup_middle by done. rewrite decide_True by done.
  do 3 f_equal. unfold with_pending. cbn [mgr trace pending seen].
  rewrite delete_middle, app_nil_r. by destruct w0.
Qed.

(** X12: when a mutation succeeds and the refresh it triggers is answered
    without error, the method returns the answer of the mutation and has not
    touched the manager: the cache is written only when the refresh receives
    its answer.  Then the cache takes the payload of the refresh, not that
    of the mutation, and that payload is what the dependents are invoked
    with.  The generator answers the refresh knowing of the mutation call. *)
Theorem mutation_caches_refresh_payload (v : verb) (p : string) (d : value)
    (w : World) :
  let r1 := generator (mgr w) (trace w) v p d in
  let r2 := generator (mgr w) (trace w ++ [Call v p d]) Get p Undefined in
  isError r1 = false -> isError r2 = false ->
  exists w1 w2,
    mutate v p d w = (Normal r1, w1) /\
    mgr w1 = mgr w /\
    new_events w w1 = [Call v p d; Call Get p Undefined] /\
    settle p (length (pending w)) w1 = (Normal tt, w2) /\
    cache (mgr w2) !! p = Some (payload r2) /\
    dependents (mgr w2) = dependents (mgr w) /\
    subscriptions (mgr w2) = subscriptions (mgr w) /\
    new_events w1 w2 = map (fun c => Notify c p (payload r2)) (dependentsOf p w).
Proof.
  intros r1 r2 H1 H2. rewrite (mutate_success _ _ _ _ H1). fold r1 r2.
  eexists _, _. split; [reflexivity |].
  split; [done |]. split.
  { apply new_events_app. simpl. by rewrite <- app_assoc. }
  split.
  { apply (settle_latest p r2 (emit (Call Get p Undefined) (emit (Call v p d) w))). }
  rewrite (update_resume_success _ _ _ H2). simpl. split_and!; try done.
  - by rewrite lookup_insert_eq.
  - by apply new_events_app.
Qed.

Lemma mutation_caches_refresh_payload_witness :
  let w := exec_all [Subscribe 1 "/users/1"; DoGet "/users/1" Undefined]
             (init store_backend) in
  cache (mgr w) !! "/users/1" = Some Null /\
  exists w1 w2,
    put "/users/1" (Str "Bob") w = (Normal (Reply_OK (Str "Bob")), w1) /\
    cache (mgr w1) !! "/users/1" = Some Null /\
    settle "/users/1" 0 w1 = (Normal tt, w2) /\
    cache (mgr w2) !! "/users/1" = Some (Str "Bob") /\
    new_events w1 w2 = [Notify 1 "/users/1" (Str "Bob")].
Proof.
  intros w. split; [done |].
  destruct (mutation_caches_refresh_payload Put "/users/1" (Str "Bob") w
              eq_refl eq_refl) as (w1 & w2 & Hrun & Hm & _ & Hset & Hc & _ & _ & Hev).
  exists w1, w2. split_and!; try done. by rewrite Hm.
Defined.



(** X14: in a reachable world, when a mutation succeeds (a delete that
    worked, say) and the refresh it triggers is answered with 404, the method
    returns the answer of the mutation and has not touched the manager.
    When the refresh receives its answer, the cache entry of the path goes,
    nobody is subscribed to the path any more, and each former dependent is
    invoked once with [undefined]. *)
Theorem mutation_then_eviction (v : verb) (p : string) (d : value) (w : World) :
  reachable w ->
  let r1 := generator (mgr w) (trace w) v p d in
  let r2 := generator (mgr w) (trace w ++ [Call v p d]) Get p Undefined in
  isError r1 = false -> isError r2 = true -> status r2 = 404%Z ->
  exists w1 w2,
    mutate v p d w = (Normal r1, w1) /\
    mgr w1 = mgr w /\
    new_events w w1 = [Call v p d; Call Get p Undefined] /\
    settle p (length (pending w)) w1 = (Normal tt, w2) /\
    cache (mgr w2) !! p = None /\
    (forall c, (c ∉ dependentsOf p w2) /\ (p ∉ subscriptionsOf c w2)) /\
    new_events w1 w2 = map (fun c => Notify c p Undefined) (dependentsOf p w).
Proof.
  intros Hw r1 r2 H1 H2 Hst.
  pose proof (reachable_graph_inv _ Hw) as (Hsym & Hnd & _).
  rewrite (mutate_success _ _ _ _ H1). fold r1 r2.
  set (w0 := emit (Call Get p Undefined) (emit (Call v p d) w)).
  assert (symmetric w0) as Hsym0 by (by apply (symmetric_same_graph w)).
  destruct (update_resume_404 p r2 w0 Hsym0 (Hnd p) H2 Hst)
    as (w' & Hrun & Hsym' & Hd' & Hc' & _ & Ht' & _).
  eexists _, w'. split; [reflexivity |].
  split; [done |]. split.
  { apply new_events_app. simpl. by rewrite <- app_assoc. }
  split.
  { pose proof (settle_latest p r2 w0) as Hset. rewrite Hrun in Hset. exact Hset. }
  split_and!.
  - rewrite Hc'. apply lookup_delete_eq.
  - intros c. assert (c ∉ dependentsOf p w') as Hc.
    { rewrite Hd'. apply not_elem_of_nil. }
    split; [done |]. by rewrite <- (Hsym' c p).
  - by apply new_events_app.
Qed.

Lemma mutation_then_eviction_witness :
  let w := exec_all [Subscribe 1 "/users/1"; Subscribe 2 "/users/1";
                     DoGet "/users/1" Undefined]
             (init sample_backend) in
  (reachable w /\ cache (mgr w) !! "/users/1" = Some (Str "/users/1")) /\
  exists w1 w2,
    delete_ "/users/1" w = (Normal (Reply_OK Null), w1) /\
    cache (mgr w1) !! "/users/1" = Some (Str "/users/1") /\
    dependentsOf "/users/1" w1 = [1%nat; 2%nat] /\
    settle "/users/1" 0 w1 = (Normal tt, w2) /\
    cache (mgr w2) !! "/users/1" = None /\
    dependentsOf "/users/1" w2 = [] /\
    new_events w1 w2 =
      [Notify 1 "/users/1" Undefined; Notify 2 "/users/1" Undefined].
Proof.
  intros w.
  pose proof (reachable_exec_all
                [Subscribe 1 "/users/1"; Subscribe 2 "/users/1";
                 DoGet "/users/1" Undefined]
                _ (reachable_init sample_backend)) as Hw.
  split; [by split |].
  destruct (mutation_then_eviction Delete "/users/1" Null w Hw
              eq_refl eq_refl eq_refl)
    as (w1 & w2 & Hrun & Hm & _ & Hset & Hc & Hg & Hev).
  exists w1, w2. split_and!; try done.
  - by rewrite Hm.
  - unfold dependentsOf. by rewrite Hm.
  - apply elem_of_nil_inv. intros c. apply (Hg c).
Defined.

(** X15: an error answer is never cached.  After a [get(p)] that missed the
    cache and was answered with an error, there is still no entry for [p],
    so the next [get(p)] asks the generator again. *)
Theorem errors_are_not_cached (p : string) (d d' : value) (w : World) :
  cache (mgr w) !! p = None ->
  isError (generator (mgr w) (trace w) Get p Undefined) = true ->
  let w1 := snd (get p d w) in
  cache (mgr w1) !! p = None /\
  resolver_calls (trace (snd (get p d' w1))) =
    resolver_calls (trace w) ++ [(Get, p, Undefined); (Get, p, Undefined)].
Proof.
  intros Hmiss Herr w1.
  assert (get p d w = update p w) as Hget.
  { unfold get, bind at 1, gets. by rewrite Hmiss. }
  assert (cache (mgr w1) !! p = None) as Hmiss1.
  { unfold w1. rewrite Hget, update_cache. cbv zeta. rewrite Herr. simpl.
    destruct (_ =? _)%Z; [apply lookup_delete_eq | done]. }
  split; [done |].
  assert (get p d' w1 = update p w1) as ->.
  { unfold get, bind at 1, gets. by rewrite Hmiss1. }
  rewrite update_calls. unfold w1. rewrite Hget, update_calls.
  by rewrite <- app_assoc.
Qed.

Lemma errors_are_not_cached_witness :
  let w := exec_all [Subscribe 1 "/broken"] (init sample_backend) in
  (cache (mgr w) !! "/broken" = None /\
   isError (generator (mgr w) (trace w) Get "/broken" Undefined) = true) /\
  cache (mgr (snd (get "/broken" Undefined w))) !! "/broken" = None /\
  resolver_calls
    (trace (snd (get "/broken" Undefined (snd (get "/broken" Undefined w))))) =
  resolver_calls (trace w) ++
    [(Get, "/broken", Undefined); (Get, "/broken", Undefined)].
Proof.
  intros w. split; [by split |].
  apply (errors_are_not_cached "/broken" Undefined Undefined w); reflexivity.
Defined.

(** ** Who can gain a subscription, and who is invoked *)

Lemma trace_kept_by_unsubscribe (tr : list event) c path :
  preserves (fun w => trace w = tr) (unsubscribe c path).
Proof. apply preserves_unsubscribe_of_inserts; by intros. Qed.

Lemma notifications_to_app c evs1 evs2 :
  notifications_to c (evs1 ++ evs2) =
  notifications_to c evs1 ++ notifications_to c evs2.
Proof. unfold notifications_to. apply omap_app. Qed.

Lemma update_resume_shrinks p r w :
  graph_inv w ->
  forall d q, q ∈ subscriptionsOf d (snd (update_resume p r w)) ->
              q ∈ subscriptionsOf d w.
Proof.
  intros (Hsym & Hnd & _) d q.
  destruct (isError r) eqn:Herr.
  - destruct (Z.eqb_spec (status r) 404) as [Hst|Hst].
    + rewrite (update_resume_404_subscriptions p r w Hsym (Hnd p) Herr Hst).
      destruct (decide (d ∈ dependentsOf p w)); [| done].
      rewrite list_elem_of_filter. tauto.
    + by rewrite update_resume_other_error.
  - by rewrite update_resume_success.
Qed.

Lemma update_resume_silent_for c p r w :
  graph_inv w -> c ∉ dependentsOf p w ->
  exists evs, trace (snd (update_resume p r w)) = trace w ++ evs /\
              notifications_to c evs = [].
Proof.
  intros Hinv Hc. destruct (update_resume_shape p r w Hinv) as (w' & Hrun & Ht).
  rewrite Hrun. cbn [snd]. eexists. split; [exact Ht |].
  destruct (isError r && negb (status r =? 404)%Z); [done |].
  by apply notifications_to_skip.
Qed.

Lemma update_shrinks p w :
  graph_inv w ->
  forall d q, q ∈ subscriptionsOf d (snd (update p w)) -> q ∈ subscriptionsOf d w.
Proof.
  intros Hinv d q. unfold update, bind at 1, call_generator.
  intros Hq. by apply update_resume_shrinks in Hq; [| apply graph_inv_emit].
Qed.

Lemma update_silent_for c p w :
  graph_inv w -> c ∉ dependentsOf p w ->
  exists evs, trace (snd (update p w)) = trace w ++ evs /\
              notifications_to c evs = [].
Proof.
  intros Hinv Hc. unfold update, bind at 1, call_generator.
  destruct (update_resume_silent_for c p
              (generator (mgr w) (trace w) Get p Undefined)
              (emit (Call Get p Undefined) w)) as (evs & Ht & Hn);
    [by apply graph_inv_emit | done |].
  exists (Call Get p Undefined :: evs). split.
  - rewrite Ht. simpl. by rewrite <- app_assoc.
  - done.
Qed.

(** A mutating method leaves the manager as it is and invokes nobody. *)
Lemma mutate_world v p d w :
  mgr (snd (mutate v p d w)) = mgr w /\
  exists evs, trace (snd (mutate v p d w)) = trace w ++ evs /\
              forall c, notifications_to c evs = [].
Proof.
  destruct (isError (generator (mgr w) (trace w) v p d)) eqn:Hr.
  - rewrite mutate_failure by done. split; [done |]. by exists [Call v p d].
  - rewrite mutate_success by done. split; [done |].
    exists [Call v p d; Call Get p Undefined]. split; [| done].
    simpl. by rewrite <- app_assoc.
Qed.

Lemma settle_world p i w :
  snd (settle p i w) = w \/
  exists r, snd (settle p i w) = snd (update_resume p r (with_pending (delete i) w)).
Proof.
  unfold settle. destruct (pending w !! i) as [[p' r]|]; [| by left].
  destruct (decide (p' = p)); [| by left]. right. by exists r.
Qed.

(** No operation but [subscribe(c, _)] adds to the subscriptions of [c]. *)
Lemma exec_shrinks_client (c : client) (o : op) (w : World) :
  reachable w -> subscribes c o = false ->
  forall q, q ∈ subscriptionsOf c (exec o w) -> q ∈ subscriptionsOf c w.
Proof.
  intros Hw Hns q. pose proof (reachable_graph_inv _ Hw) as Hinv.
  assert (graph_inv w) as (Hsym & _) by done.
  assert (forall v p d, q ∈ subscriptionsOf c (snd (mutate v p d w)) ->
                        q ∈ subscriptionsOf c w) as Hmut.
  { intros v p d. unfold subscriptionsOf.
    by rewrite (proj1 (mutate_world v p d w)). }
  destruct o as [c' p|c' path|p d|p|p d|p d|p d|p|p r|p i]; simpl in *.
  - apply bool_decide_eq_false in Hns.
    destruct (subscribe_views c' p w) as [_ Hs]. rewrite Hs.
    by rewrite decide_False by congruence.
  - pose proof (unsubscribe_removes c' path w Hsym) as (_ & Hs & _).
    rewrite Hs. destruct (decide (c = c')); [| done].
    rewrite list_elem_of_filter. tauto.
  - unfold get, bind at 1, gets. destruct (cache (mgr w) !! p); [done |].
    by apply update_shrinks.
  - by apply update_shrinks.
  - apply Hmut.
  - apply Hmut.
  - apply Hmut.
  - apply Hmut.
  - by apply update_resume_shrinks.
  - destruct (settle_world p i w) as [->|[r ->]]; [done |].
    intros Hq. apply update_resume_shrinks in Hq; [done |].
    by apply (graph_inv_same_graph w).
Qed.

(** X16: in a reachable world, an operation other than [subscribe(c, _)]
    gives client [c] no subscription it did not have: [update], [get], the
    mutating methods, [unsubscribe] and the subscriptions of other clients
    can only leave the subscriptions of [c] as they are or take some away. *)
Theorem only_subscribe_adds_subscriptions (c : client) (o : op) (w : World) :
  reachable w -> subscribes c o = false ->
  forall q, q ∈ subscriptionsOf c (exec o w) -> q ∈ subscriptionsOf c w.
Proof. apply exec_shrinks_client. Qed.

Lemma only_subscribe_adds_subscriptions_witness :
  let w := exec_all [Subscribe 1 "/a"; Subscribe 2 "/b"] (init sample_backend) in
  (reachable w /\ subscribes 1 (DoPost "/a" Null) = false /\
   "/a" ∈ subscriptionsOf 1 (exec (DoPost "/a" Null) w)) /\
  "/a" ∈ subscriptionsOf 1 w.
Proof.
  intros w.
  pose proof (reachable_exec_all [Subscribe 1 "/a"; Subscribe 2 "/b"]
                _ (reachable_init sample_backend)) as Hw.
  assert ("/a" ∈ subscriptionsOf 1 (exec (DoPost "/a" Null) w)) as Hin.
  { apply elem_of_cons. by left. }
  split; [split_and!; done |].
  exact (only_subscribe_adds_subscriptions 1 (DoPost "/a" Null) w Hw eq_refl "/a" Hin).
Defined.

Lemma exec_silent_for c o w :
  graph_inv w -> subscriptionsOf c w = [] ->
  exists evs, trace (exec o w) = trace w ++ evs /\ notifications_to c evs = [].
Proof.
  intros Hinv Hc. assert (graph_inv w) as (Hsym & _) by done.
  assert (forall p, c ∉ dependentsOf p w) as Hout.
  { intros p. rewrite (Hsym c p), Hc. apply not_elem_of_nil. }
  assert (forall v p d, exists evs,
            trace (snd (mutate v p d w)) = trace w ++ evs /\
            notifications_to c evs = []) as Hmut.
  { intros v p d. destruct (mutate_world v p d w) as (_ & evs & Ht & Hn).
    exists evs. by split. }
  destruct o as [c' p|c' path|p d|p|p d|p d|p d|p|p r|p i]; simpl.
  - exists []. rewrite subscribe_eq. simpl. by rewrite app_nil_r.
  - exists []. rewrite (trace_kept_by_unsubscribe (trace w) c' path w eq_refl).
    by rewrite app_nil_r.
  - unfold get, bind at 1, gets. destruct (cache (mgr w) !! p).
    + exists []. simpl. by rewrite app_nil_r.
    + by apply update_silent_for.
  - by apply update_silent_for.
  - apply Hmut.
  - apply Hmut.
  - apply Hmut.
  - apply Hmut.
  - by apply update_resume_silent_for.
  - destruct (settle_world p i w) as [->|[r ->]].
    + exists []. by rewrite app_nil_r.
    + apply (update_resume_silent_for c p r (with_pending (delete i) w));
        [by apply (graph_inv_same_graph w) | apply Hout].
Qed.

(** X17: in a reachable world, a client without subscriptions (one that has
    unsubscribed from everything, say) is not invoked by anything that
    follows, and stays without subscriptions, until it subscribes again. *)
Theorem client_without_subscriptions_stays_silent (c : client) (os : list op)
    (w : World) :
  reachable w -> subscriptionsOf c w = [] ->
  forallb (fun o => negb (subscribes c o)) os = true ->
  subscriptionsOf c (exec_all os w) = [] /\
  notifications_to c (new_events w (exec_all os w)) = [].
Proof.
  intros Hw Hc Hos.
  assert (exists evs, trace (exec_all os w) = trace w ++ evs /\
                      notifications_to c evs = [] /\
                      subscriptionsOf c (exec_all os w) = []) as (evs & Ht & Hn & Hs).
  { revert w Hw Hc. induction os as [|o os IH]; intros w Hw Hc; simpl.
    - exists []. by rewrite app_nil_r.
    - simpl in Hos. apply andb_prop in Hos as [Ho Hos].
      apply negb_true_iff in Ho.
      destruct (exec_silent_for c o w (reachable_graph_inv _ Hw) Hc)
        as (evs1 & Ht1 & Hn1).
      assert (subscriptionsOf c (exec o w) = []) as Hc1.
      { apply elem_of_nil_inv. intros q Hq.
        apply (exec_shrinks_client c o w Hw Ho) in Hq.
        rewrite Hc in Hq. by apply elem_of_nil in Hq. }
      destruct (IH Hos (exec o w) (reachable_step o w Hw) Hc1)
        as (evs2 & Ht2 & Hn2 & Hs2).
      exists (evs1 ++ evs2). split_and!; [| | done].
      + by rewrite Ht2, Ht1, app_assoc.
      + by rewrite notifications_to_app, Hn1, Hn2. }
  split; [done |]. by rewrite (new_events_app _ _ _ Ht).
Qed.

Lemma client_without_subscriptions_stays_silent_witness :
  let w := exec_all [Subscribe 1 "/users/1"; Subscribe 1 "/users/2";
                     Subscribe 2 "/users/1"; Unsubscribe 1 None]
             (init sample_backend) in
  let os := [DoGet "/users/1" Undefined; DoPut "/users/2" (Str "x");
             DoDelete "/users/1"; DoUpdate "/users/2"] in
  (reachable w /\ subscriptionsOf 1 w = []) /\
  subscriptionsOf 1 (exec_all os w) = [] /\
  notifications_to 1 (new_events w (exec_all os w)) = [].
Proof.
  intros w os.
  pose proof (reachable_exec_all
                [Subscribe 1 "/users/1"; Subscribe 1 "/users/2";
                 Subscribe 2 "/users/1"; Unsubscribe 1 None]
                _ (reachable_init sample_backend)) as Hw.
  split; [by split |].
  exact (client_without_subscriptions_stays_silent 1 os w Hw eq_refl eq_refl).
Defined.
